(** * cholla_scaling: the scaling-case generator of [problem_props.py]

    A shallow embedding of [_prod], [ProblemCase], [_next_case],
    [build_cases] and [ProblemProps.maketype_and_param_paths], followed by
    the properties of the scaling-case generation engine.

    Numbers.  [grid_shape_xyz] and [nproc_grid_xyz] hold Python integers,
    which are unbounded: they are [Z].  [grid_left_xyz] and
    [grid_width_xyz] hold Python floats.  The only operations the module
    performs on them are [v * 2] and [v == 0]; on binary64 a product by two
    is exact for every finite value below the overflow threshold, so these
    coordinates are modelled as exact rationals [Q], compared with [Qeq]. *)

From Stdlib Require Import ZArith QArith List String Bool Lia Sorted.
From Stdlib Require Import Permutation Ascii.
From Stdlib Require Decimal DecimalString DecimalZ.
From Stdlib.Strings Require Byte.
Import ListNotations.

Local Open Scope Z_scope.

(** ** Exceptions and results *)

(** The [assert] statements of the module, one constructor per site. *)
Inductive assert_site : Type :=
| Assert_max_proc            (* build_cases: assert 1 <= max_proc *)
| Assert_min_generated_proc  (* build_cases: assert 0 <= min_generated_proc <= max_proc *)
| Assert_base_total_proc     (* build_cases: assert base_case.total_proc() <= max_proc *)
| Assert_grid_left_zero.     (* _next_case: assert all(v==0 for v in case.grid_left_xyz) *)

(** The [RuntimeError]s of [maketype_and_param_paths], one per message. *)
Inductive runtime_error : Type :=
| Expect_exactly_2_files
| No_maketype_file
| All_maketype_files.

Inductive exn : Type :=
| AssertionError (site : assert_site)
| AttributeError (attr : string)
| RuntimeError (why : runtime_error).

Inductive result (A : Type) : Type :=
| Ok (a : A)
| Raise (e : exn).

Arguments Ok {A} a.
Arguments Raise {A} e.

Definition bind {A B : Type} (r : result A) (k : A -> result B) : result B :=
  match r with
  | Ok a => k a
  | Raise e => Raise e
  end.

Notation "x <- r ;; k" := (bind r (fun x => k))
  (at level 61, r at next level, right associativity).

(** ** Triples *)

Definition triple (A : Type) : Type := (A * A * A)%type.

Definition ax0 {A} (t : triple A) : A := fst (fst t).
Definition ax1 {A} (t : triple A) : A := snd (fst t).
Definition ax2 {A} (t : triple A) : A := snd t.

Definition elems {A} (t : triple A) : list A := [ax0 t; ax1 t; ax2 t].

(** What [generic_transform] needs of a component: [elem * 2]. *)
Class Times2 (A : Type) : Type := times2 : A -> A.

#[export] Instance Times2_int : Times2 Z := fun z => z * 2.
#[export] Instance Times2_float : Times2 Q := fun q => (q * 2)%Q.

(** ** [_prod] and [ProblemCase] *)

Definition _prod (iterable : list Z) (start : Z) : Z :=
  fold_left (fun out elem => out * elem) iterable start.

Record ProblemCase : Type := mkProblemCase {
  grid_left_xyz  : triple Q;
  grid_width_xyz : triple Q;
  grid_shape_xyz : triple Z;
  nproc_grid_xyz : triple Z
}.

Definition total_proc (self : ProblemCase) : Z :=
  _prod (elems (nproc_grid_xyz self)) 1.

Inductive OriginLoc : Type := LEFT | CENTER.

(** The members of the [ScaleRule] enumeration.  There is no member called
    [XY_AXIS]. *)
Inductive ScaleRule : Type := X_AXIS | Z_AXIS | XY_PLANE.

(** ** [_next_case] *)

(** The three bodies of [generic_transform], named after the branch of the
    [if]/[elif] chain that defines them. *)
Inductive branch : Type := Branch_X_AXIS | Branch_Z_AXIS | Branch_XY_AXIS.

Definition generic_transform (b : branch) {A} `{Times2 A} (t : triple A)
  : triple A :=
  match b with
  | Branch_X_AXIS  => (times2 (ax0 t), ax1 t, ax2 t)
  | Branch_Z_AXIS  => (ax0 t, ax1 t, times2 (ax2 t))
  | Branch_XY_AXIS => (times2 (ax0 t), times2 (ax2 t), ax2 t)
  end.

(** The [if]/[elif] chain on [scale_rule].  The third test evaluates the
    attribute [ScaleRule.XY_AXIS]; the enumeration has no such member, so
    the evaluation raises [AttributeError] whenever the first two tests
    fail.  The third body is never selected, and the final [else], which
    raises [RuntimeError], is never reached. *)
Definition select_transform (scale_rule : ScaleRule) : result branch :=
  match scale_rule with
  | X_AXIS => Ok Branch_X_AXIS
  | Z_AXIS => Ok Branch_Z_AXIS
  | XY_PLANE => Raise (AttributeError "XY_AXIS")
  end.

(** [v == 0] on a float. *)
Definition is_zero (v : Q) : bool := Qeq_bool v 0.

Definition _next_case (case : ProblemCase) (origin_loc : OriginLoc)
  (scale_rule : ScaleRule) : result ProblemCase :=
  b <- select_transform scale_rule ;;
  let width := generic_transform b (grid_width_xyz case) in
  let shape := generic_transform b (grid_shape_xyz case) in
  let nproc := generic_transform b (nproc_grid_xyz case) in
  left <- match origin_loc with
          | LEFT =>
              if forallb is_zero (elems (grid_left_xyz case))
              then Ok (grid_left_xyz case)
              else Raise (AssertionError Assert_grid_left_zero)
          | CENTER => Ok (generic_transform b (grid_left_xyz case))
          end ;;
  Ok {| grid_left_xyz := left;
        grid_width_xyz := width;
        grid_shape_xyz := shape;
        nproc_grid_xyz := nproc |}.

(** ** [build_cases] *)

(** [build_cases] is a generator.  Its frame is either at the entry of the
    body (nothing has run yet), at the head of the [while True] loop with
    the current binding of [case], or past its end.  One step runs the body
    up to the next [yield], [continue], [return] or raised exception. *)
Inductive gen_state : Type :=
| At_entry
| At_loop (case : ProblemCase)
| At_exit.

Inductive event : Type :=
| Yield (case : ProblemCase)   (* a value is handed to the consumer *)
| Silent                       (* control returns to the loop head, no value *)
| Return                       (* the generator is exhausted *)
| Raised (e : exn).

(** How the consumption of the generator ends. *)
Inductive outcome : Type :=
| Returned
| Failed (e : exn)
| Out_of_fuel.

Section Generator.

Variable base_case : ProblemCase.
Variable origin_loc : OriginLoc.
Variable scale_rule : ScaleRule.
Variable max_proc : Z.
Variable min_generated_proc : Z.
Variable include_base_case : bool.

(** The three [assert] statements at the head of the body, in order. *)
Definition check_arguments : result unit :=
  if negb (1 <=? max_proc)
  then Raise (AssertionError Assert_max_proc)
  else if negb ((0 <=? min_generated_proc) && (min_generated_proc <=? max_proc))
  then Raise (AssertionError Assert_min_generated_proc)
  else if negb (total_proc base_case <=? max_proc)
  then Raise (AssertionError Assert_base_total_proc)
  else Ok tt.

Definition gen_step (st : gen_state) : event * gen_state :=
  match st with
  | At_entry =>
      match check_arguments with
      | Raise e => (Raised e, At_exit)
      | Ok _ =>
          if include_base_case
          then (Yield base_case, At_loop base_case)
          else (Silent, At_loop base_case)
      end
  | At_loop case =>
      match _next_case case origin_loc scale_rule with
      | Raise e => (Raised e, At_exit)
      | Ok case' =>
          let total := total_proc case' in
          if total <? min_generated_proc then (Silent, At_loop case')
          else if total >? max_proc then (Return, At_exit)
          else (Yield case', At_loop case')
      end
  | At_exit => (Return, At_exit)
  end.

(** [list(...)] over the generator from state [st]: the values yielded,
    in order, and how the iteration ended.  [fuel] bounds the number of
    steps. *)
Fixpoint run (fuel : nat) (st : gen_state) : list ProblemCase * outcome :=
  match fuel with
  | O => ([], Out_of_fuel)
  | S fuel' =>
      match gen_step st with
      | (Yield c, st') =>
          let (ys, o) := run fuel' st' in (c :: ys, o)
      | (Silent, st') => run fuel' st'
      | (Return, _) => ([], Returned)
      | (Raised e, _) => ([], Failed e)
      end
  end.

Definition build_cases (fuel : nat) : list ProblemCase * outcome :=
  run fuel At_entry.

(** The case obtained from [c] by [n] successive calls of [_next_case]. *)
Fixpoint iter_next (n : nat) (c : ProblemCase) : result ProblemCase :=
  match n with
  | O => Ok c
  | S n' => c' <- _next_case c origin_loc scale_rule ;; iter_next n' c'
  end.

(** The first [n] cases derived from [c], in order of derivation. *)
Fixpoint chain (n : nat) (c : ProblemCase) : list ProblemCase :=
  match n with
  | O => []
  | S n' =>
      match _next_case c origin_loc scale_rule with
      | Ok c' => c' :: chain n' c'
      | Raise _ => []
      end
  end.

Definition above_floor (c : ProblemCase) : bool :=
  min_generated_proc <=? total_proc c.

End Generator.

(** The base case of the command-line driver for a [LEFT] problem, with the
    coordinates of the scenario of the specification. *)
Definition scenario_base : ProblemCase :=
  {| grid_left_xyz := (0, 0, 0)%Q;
     grid_width_xyz := (2, 2, 2)%Q;
     grid_shape_xyz := (350, 350, 350);
     nproc_grid_xyz := (1, 1, 1) |}.

(** ** [ProblemProps.maketype_and_param_paths] *)

Definition _MAKETYPE_PREFIX : string := "make.type.".

(** An [os.DirEntry]: what the method reads of it. *)
Module DirEntry.
Record t : Type := mk {
  name : string;
  path : string;
  is_file : bool
}.
End DirEntry.

(** [name.startswith(_MAKETYPE_PREFIX)] *)
Definition startswith (name pre : string) : bool := String.prefix pre name.

(** The local variables of the method that the [for] loop updates. *)
Record scan_vars : Type := mkScan {
  count : Z;
  maketype_path : option string;
  param_path : option string
}.

(** The [for] loop over the entries that pass the [is_file] filter. *)
Fixpoint scan_loop (files : list DirEntry.t) (v : scan_vars) : scan_vars :=
  match files with
  | [] => v
  | entry :: rest =>
      let count' := count v + 1 in
      if count' =? 3
      then {| count := count';
              maketype_path := maketype_path v;
              param_path := param_path v |}
      else if startswith (DirEntry.name entry) _MAKETYPE_PREFIX
      then scan_loop rest {| count := count';
                             maketype_path := Some (DirEntry.path entry);
                             param_path := param_path v |}
      else scan_loop rest {| count := count';
                             maketype_path := maketype_path v;
                             param_path := Some (DirEntry.path entry) |}
  end.

(** [it] is what [os.scandir(inputs_loc)] iterates over, in the order of
    the iteration. *)
Definition maketype_and_param_paths (it : list DirEntry.t)
  : result (string * string) :=
  let v := scan_loop (filter DirEntry.is_file it)
             {| count := 0; maketype_path := None; param_path := None |} in
  if negb (count v =? 2) then Raise (RuntimeError Expect_exactly_2_files)
  else match maketype_path v with
       | None => Raise (RuntimeError No_maketype_file)
       | Some m =>
           match param_path v with
           | None => Raise (RuntimeError All_maketype_files)
           | Some p => Ok (m, p)
           end
       end.

(** The number of entries of [files] whose name has the prefix. *)
Definition count_prefixed (files : list DirEntry.t) : nat :=
  List.length (filter (fun e => startswith (DirEntry.name e) _MAKETYPE_PREFIX) files).

(** ** The scenario of the specification *)

(** The two cases derived from [scenario_base] within four processes. *)
Definition scenario_nproc2 : ProblemCase :=
  {| grid_left_xyz := (0, 0, 0)%Q;
     grid_width_xyz := (4, 2, 2)%Q;
     grid_shape_xyz := (700, 350, 350);
     nproc_grid_xyz := (2, 1, 1) |}.

Definition scenario_nproc4 : ProblemCase :=
  {| grid_left_xyz := (0, 0, 0)%Q;
     grid_width_xyz := (8, 2, 2)%Q;
     grid_shape_xyz := (1400, 350, 350);
     nproc_grid_xyz := (4, 1, 1) |}.

(** The three [assert] conditions of [build_cases]. *)
Definition preconditions (base_case : ProblemCase) (max_proc min_generated_proc : Z)
  : Prop :=
  1 <= max_proc /\
  0 <= min_generated_proc <= max_proc /\
  total_proc base_case <= max_proc.

Definition build_cases_assert (site : assert_site) : Prop :=
  site = Assert_max_proc \/ site = Assert_min_generated_proc \/
  site = Assert_base_total_proc.

(** ** Objects and references

    The functions above work on values.  In the interpreter a
    [ProblemCase] is an object that refers to four tuple objects, and what a
    caller holds is a reference.  [Heap] replays [_next_case] and
    [build_cases] on a store of objects, with the allocations of the
    source: a tuple for each transformed field, the tuple of
    [grid_left_xyz] shared with the argument under [LEFT], and the new
    [ProblemCase].  A function returns [None] when a reference does not
    denote an object of the expected class. *)
Module Heap.

Definition ref : Type := nat.

Inductive object : Type :=
| Tuple_float (t : triple Q)
| Tuple_int (t : triple Z)
| Case (left width shape nproc : ref).

Definition heap : Type := list object.

(** A new object takes the first free reference. *)
Definition alloc (h : heap) (ob : object) : heap * ref :=
  (h ++ [ob], List.length h).

Definition get_float (h : heap) (r : ref) : option (triple Q) :=
  match nth_error h r with
  | Some (Tuple_float t) => Some t
  | _ => None
  end.

Definition get_int (h : heap) (r : ref) : option (triple Z) :=
  match nth_error h r with
  | Some (Tuple_int t) => Some t
  | _ => None
  end.

Definition get_case (h : heap) (r : ref) : option (ref * ref * ref * ref) :=
  match nth_error h r with
  | Some (Case l w s n) => Some (l, w, s, n)
  | _ => None
  end.

(** The value that the reference [r] denotes in [h]. *)
Definition load_case (h : heap) (r : ref) : option ProblemCase :=
  match get_case h r with
  | Some (l, w, s, n) =>
      match get_float h l, get_float h w, get_int h s, get_int h n with
      | Some tl, Some tw, Some ts, Some tn =>
          Some {| grid_left_xyz := tl; grid_width_xyz := tw;
                  grid_shape_xyz := ts; nproc_grid_xyz := tn |}
      | _, _, _, _ => None
      end
  | None => None
  end.

Definition next_case (h : heap) (case : ref) (origin_loc : OriginLoc)
  (scale_rule : ScaleRule) : option (result (heap * ref)) :=
  match get_case h case with
  | Some (l, w, s, n) =>
      match get_float h l, get_float h w, get_int h s, get_int h n with
      | Some tl, Some tw, Some ts, Some tn =>
          Some (b <- select_transform scale_rule ;;
                let (h1, w') := alloc h (Tuple_float (generic_transform b tw)) in
                let (h2, s') := alloc h1 (Tuple_int (generic_transform b ts)) in
                let (h3, n') := alloc h2 (Tuple_int (generic_transform b tn)) in
                hl <- match origin_loc with
                      | LEFT =>
                          if forallb is_zero (elems tl)
                          then Ok (h3, l)
                          else Raise (AssertionError Assert_grid_left_zero)
                      | CENTER =>
                          Ok (alloc h3 (Tuple_float (generic_transform b tl)))
                      end ;;
                Ok (alloc (fst hl) (Case (snd hl) w' s' n')))
      | _, _, _, _ => None
      end
  | None => None
  end.

Inductive gen_state : Type :=
| At_entry
| At_loop (case : ref)
| At_exit.

Inductive event : Type :=
| Yield (case : ref)
| Silent
| Return
| Raised (e : exn).

Section HeapGenerator.

Variable base_case : ref.
Variable origin_loc : OriginLoc.
Variable scale_rule : ScaleRule.
Variable max_proc : Z.
Variable min_generated_proc : Z.
Variable include_base_case : bool.

Definition gen_step (h : heap) (st : gen_state)
  : option (event * heap * gen_state) :=
  match st with
  | At_entry =>
      match load_case h base_case with
      | None => None
      | Some base =>
          match check_arguments base max_proc min_generated_proc with
          | Raise e => Some (Raised e, h, At_exit)
          | Ok _ =>
              if include_base_case
              then Some (Yield base_case, h, At_loop base_case)
              else Some (Silent, h, At_loop base_case)
          end
      end
  | At_loop case =>
      match next_case h case origin_loc scale_rule with
      | None => None
      | Some (Raise e) => Some (Raised e, h, At_exit)
      | Some (Ok (h', case')) =>
          match load_case h' case' with
          | None => None
          | Some c' =>
              let total := total_proc c' in
              if total <? min_generated_proc
              then Some (Silent, h', At_loop case')
              else if total >? max_proc then Some (Return, h', At_exit)
              else Some (Yield case', h', At_loop case')
          end
      end
  | At_exit => Some (Return, h, At_exit)
  end.

(** The references yielded, the final store and how the run ended. *)
Fixpoint run (fuel : nat) (h : heap) (st : gen_state)
  : option (list ref * heap * outcome) :=
  match fuel with
  | O => Some ([], h, Out_of_fuel)
  | S fuel' =>
      match gen_step h st with
      | None => None
      | Some (Yield r, h', st') =>
          match run fuel' h' st' with
          | Some (rs, h'', o) => Some (r :: rs, h'', o)
          | None => None
          end
      | Some (Silent, h', st') => run fuel' h' st'
      | Some (Return, h', _) => Some ([], h', Returned)
      | Some (Raised e, h', _) => Some ([], h', Failed e)
      end
  end.

Definition build_cases (fuel : nat) (h : heap)
  : option (list ref * heap * outcome) :=
  run fuel h At_entry.

End HeapGenerator.

(** [h'] is [h] followed by new objects: no object of [h] has been
    replaced or removed. *)
Definition extends (h h' : heap) : Prop := exists new, h' = h ++ new.

End Heap.

(** * Vocabulary of the properties *)

Definition all_zero (t : triple Q) : Prop :=
  (ax0 t == 0 /\ ax1 t == 0 /\ ax2 t == 0)%Q.

Definition positive_triple (t : triple Z) : Prop :=
  0 < ax0 t /\ 0 < ax1 t /\ 0 < ax2 t.

(** Cells per partition along one axis, as an exact quotient. *)
Definition ratio (cells parts : Z) : Q := (inject_Z cells / inject_Z parts)%Q.

(** [t'] is [t] with each component multiplied by the matching component
    of the pattern [m]. *)
Definition scaled_int (m t t' : triple Z) : Prop :=
  ax0 t' = ax0 t * ax0 m /\ ax1 t' = ax1 t * ax1 m /\ ax2 t' = ax2 t * ax2 m.

Definition scaled_float (m : triple Z) (t t' : triple Q) : Prop :=
  (ax0 t' == ax0 t * inject_Z (ax0 m) /\
   ax1 t' == ax1 t * inject_Z (ax1 m) /\
   ax2 t' == ax2 t * inject_Z (ax2 m))%Q.

(** Along every axis, the cells per partition of [c'] are those of [c]. *)
Definition same_workload (c c' : ProblemCase) : Prop :=
  (ratio (ax0 (grid_shape_xyz c')) (ax0 (nproc_grid_xyz c')) ==
   ratio (ax0 (grid_shape_xyz c)) (ax0 (nproc_grid_xyz c)) /\
   ratio (ax1 (grid_shape_xyz c')) (ax1 (nproc_grid_xyz c')) ==
   ratio (ax1 (grid_shape_xyz c)) (ax1 (nproc_grid_xyz c)) /\
   ratio (ax2 (grid_shape_xyz c')) (ax2 (nproc_grid_xyz c')) ==
   ratio (ax2 (grid_shape_xyz c)) (ax2 (nproc_grid_xyz c)))%Q.

(** [ck], reached after [k >= 1] calls of [_next_case] from [base_case], is
    the first derived case whose [total_proc] is above [max_proc]. *)
Definition first_above_max_proc (base_case : ProblemCase) (origin_loc : OriginLoc)
  (scale_rule : ScaleRule) (max_proc : Z) (k : nat) (ck : ProblemCase) : Prop :=
  (1 <= k)%nat /\
  iter_next origin_loc scale_rule k base_case = Ok ck /\
  max_proc < total_proc ck /\
  forall i ci, (1 <= i < k)%nat ->
               iter_next origin_loc scale_rule i base_case = Ok ci ->
               total_proc ci <= max_proc.

Arguments startswith : simpl never.

Definition has_prefix (e : DirEntry.t) : bool :=
  startswith (DirEntry.name e) _MAKETYPE_PREFIX.

(** The frame of the generator on the store against the frame on values. *)
Definition frames_agree (h : Heap.heap) (sh : Heap.gen_state) (sv : gen_state)
  : Prop :=
  match sh, sv with
  | Heap.At_entry, At_entry => True
  | Heap.At_loop a, At_loop c => Heap.load_case h a = Some c
  | Heap.At_exit, At_exit => True
  | _, _ => False
  end.

(** ** Vocabulary of the further properties *)


(** The number of cells of the grid. *)
Definition cells (c : ProblemCase) : Z := _prod (elems (grid_shape_xyz c)) 1.

(** ** [ProblemProps] and the registry *)

Module ProblemProps.
Record t : Type := mk {
  name : string;
  origin_loc : OriginLoc;
  scale_rule : ScaleRule
}.
End ProblemProps.

(** A [dict] with string keys: the items in insertion order, at most one
    per key. *)
Definition dict (V : Type) : Type := list (string * V).

(** [d[k] = v]: the value of an existing key is replaced in place, a new key
    goes to the end. *)
Fixpoint dict_set {V : Type} (d : dict V) (k : string) (v : V) : dict V :=
  match d with
  | [] => [(k, v)]
  | (k', v') :: rest =>
      if String.eqb k' k then (k', v) :: rest
      else (k', v') :: dict_set rest k v
  end.

(** [d[k]]; [None] stands for [KeyError]. *)
Fixpoint dict_get {V : Type} (d : dict V) (k : string) : option V :=
  match d with
  | [] => None
  | (k', v) :: rest => if String.eqb k' k then Some v else dict_get rest k
  end.

Definition dict_keys {V : Type} (d : dict V) : list string := map fst d.

(** The dictionary comprehension [{prop.name : prop for prop in props}]. *)
Definition _build_problem_props (props : list ProblemProps.t)
  : dict ProblemProps.t :=
  fold_left (fun d prop => dict_set d (ProblemProps.name prop) prop) props [].

Definition ProblemRegistry : dict ProblemProps.t :=
  _build_problem_props
    [ ProblemProps.mk "sound" LEFT X_AXIS;
      ProblemProps.mk "slow_magnetosonic" LEFT X_AXIS;
      ProblemProps.mk "adiabatic_disk" CENTER Z_AXIS ].

(** ** [cli_main]: the cases of a registered problem *)

(** The base case that [cli_main] builds for a problem. *)
Definition base_problem_case (problem_prop : ProblemProps.t) : ProblemCase :=
  match ProblemProps.origin_loc problem_prop with
  | LEFT =>
      {| grid_left_xyz := (0, 0, 0)%Q;
         grid_width_xyz := (2, 2, 2)%Q;
         grid_shape_xyz := (350, 350, 350);
         nproc_grid_xyz := (1, 1, 1) |}
  | CENTER =>
      {| grid_left_xyz := (-4, -4, -4)%Q;
         grid_width_xyz := (8, 8, 8)%Q;
         grid_shape_xyz := (350, 350, 350);
         nproc_grid_xyz := (1, 1, 1) |}
  end.

(** [case_l = list(build_cases(base_problem_case, origin_loc=...,
    scale_rule=..., max_proc=args.max_nproc))], with the defaults of
    [min_generated_proc] and [include_base_case]. *)
Definition case_l (problem_prop : ProblemProps.t) (max_nproc : Z) (fuel : nat)
  : list ProblemCase * outcome :=
  build_cases (base_problem_case problem_prop)
    (ProblemProps.origin_loc problem_prop)
    (ProblemProps.scale_rule problem_prop)
    max_nproc 1 true fuel.

(** ** Strings and failures of the remaining functions *)

(** A call that returns a value or raises an exception of the type [E]. *)
Inductive raising (E A : Type) : Type :=
| Returns (a : A)
| Raises (e : E).

Arguments Returns {E A} a.
Arguments Raises {E A} e.

(** [str(n)], also what an f-string prints for an integer [n]. *)
Definition str_int (n : Z) : string := DecimalString.NilEmpty.string_of_int (Z.to_int n).

(** [s[n:]] for a string and [n >= 0]. *)
Fixpoint string_drop (n : nat) (s : string) : string :=
  match n, s with
  | O, _ => s
  | S n', String _ s' => string_drop n' s'
  | S _, EmptyString => EmptyString
  end.

(** ** [_compile_cholla] *)

(** What [make_jobs] can be: a [bool], an [int] that is not a [bool], or
    an object of another type. *)
Inductive make_jobs_value : Type :=
| Jobs_bool (b : bool)
| Jobs_int (n : Z)
| Jobs_other.

Inductive make_jobs_error : Type :=
| ValueError_make_jobs   (* make_jobs can't be 0 or a negative integer *)
| TypeError_make_jobs.   (* make_jobs must be a bool or an int *)

(** The commands that [_compile_cholla] hands to [pretty_subprocess_run],
    in order, each with [cwd=cholla_dir]. *)
Definition _compile_cholla (hostname maketype : string)
  (make_jobs : make_jobs_value) : raising make_jobs_error (list (list string)) :=
  let main_build_args := ["make"%string] in
  let after_jobs :=
    match make_jobs with
    | Jobs_bool true => Returns (main_build_args ++ ["-j"%string])
    | Jobs_bool false => Returns main_build_args
    | Jobs_int n =>
        if n <=? 0 then Raises ValueError_make_jobs
        else Returns (main_build_args ++ ["-j"%string] ++ [str_int n])
    | Jobs_other => Raises TypeError_make_jobs
    end in
  match after_jobs with
  | Raises e => Raises e
  | Returns main_build_args =>
      let main_build_args :=
        main_build_args ++ [("TYPE=" ++ maketype)%string]
                        ++ [("MACHINE=" ++ hostname)%string] in
      Returns [["make"%string; "clean"%string]; main_build_args]
  end.

(** ** [_setup_cholla_for_problem] and [setup_problem_dir] *)

Section Paths.

(** [os.path.basename]. *)
Variable basename : string -> string.

(** [maketype = os.path.basename(src)[len(_MAKETYPE_PREFIX):]] *)
Definition maketype_of (src : string) : string :=
  string_drop (String.length _MAKETYPE_PREFIX) (basename src).

(** [compiled_cholla_name], the value that [_setup_cholla_for_problem]
    returns. *)
Definition compiled_cholla_name (src hostname : string) : string :=
  ("cholla." ++ maketype_of src ++ "." ++ hostname)%string.

(** The commands that [_setup_cholla_for_problem] has [_compile_cholla]
    run for the descriptor [src]. *)
Definition setup_commands (src hostname : string) (make_jobs : make_jobs_value)
  : raising make_jobs_error (list (list string)) :=
  _compile_cholla hostname (maketype_of src) make_jobs.

End Paths.

Section RunScript.

(** What an f-string prints for a float. *)
Variable str_float : Q -> string.

Definition full_launcher_template (nproc : Z) : string :=
  ("mpirun -np " ++ str_int nproc)%string.

(** [zip('xyz', values)], each pair printed as [template(ax)=value]. *)
Definition overrides (parname_template : string -> string) (vals : list string)
  : list string :=
  map (fun '(ax, val) => (parname_template ax ++ "=" ++ val)%string)
      (combine ["x"; "y"; "z"]%string vals).

(** The items of [field_partemplate_map], in the order of insertion, applied
    to a case. *)
Definition field_overrides (problem_case : ProblemCase) : list string :=
  overrides (fun ax => (ax ++ "min")%string)
            (map str_float (elems (grid_left_xyz problem_case)))
  ++ overrides (fun ax => (ax ++ "len")%string)
               (map str_float (elems (grid_width_xyz problem_case)))
  ++ overrides (fun ax => ("n" ++ ax)%string)
               (map str_int (elems (grid_shape_xyz problem_case)))
  ++ overrides (fun ax => ("n_proc_" ++ ax)%string)
               (map str_int (elems (nproc_grid_xyz problem_case))).

Definition log_name (name : string) (problem_case : ProblemCase) : string :=
  (name ++ "_N" ++ str_int (total_proc problem_case) ++ ".log")%string.

Definition shell_cmd (name chollabin parfile : string)
  (problem_case : ProblemCase) : list string :=
  [full_launcher_template (total_proc problem_case); chollabin; parfile]
  ++ field_overrides problem_case
  ++ ["&>"%string]
  ++ [log_name name problem_case].

Definition newline : string := String (ascii_of_nat 10) EmptyString.

(** The text written to [run_tests.sh]. *)
Definition run_tests_sh (abs_path name chollabin parfile : string)
  (problem_cases : list ProblemCase) : string :=
  (("# move to directory filled with tests!" ++ newline)
   ++ ("cd " ++ abs_path ++ newline)
   ++ newline
   ++ ("# run each test" ++ newline)
   ++ String.concat ""
        (map (fun problem_case =>
                String.concat " " (shell_cmd name chollabin parfile problem_case)
                ++ newline)
             problem_cases)
   ++ newline
   ++ ("# done with tests. return to original directory" ++ newline)
   ++ ("cd -" ++ newline))%string.

End RunScript.

(** ** [pretty_subprocess.py]

    A line of output is a [bytes] object, here a list of bytes; the decoded
    line and the printed lines are lists of characters. *)

Inductive output_error : Type :=
| UnicodeDecodeError
| ZeroDivisionError.

(** [line.decode('ascii')] *)
Definition decode_ascii (line : list Byte.byte)
  : raising output_error (list ascii) :=
  if forallb (fun b => (Byte.to_N b <? 128)%N) line
  then Returns (map ascii_of_byte line)
  else Raises UnicodeDecodeError.

(** The bound of a slice brought into [0 .. len], a negative bound
    counting from the end. *)
Definition clamp_index (len i : Z) : Z :=
  if i <? 0 then Z.max (i + len) 0 else Z.min i len.

(** [s[start:stop]] *)
Definition slice {A : Type} (s : list A) (start stop : Z) : list A :=
  let len := Z.of_nat (List.length s) in
  let a := clamp_index len start in
  let b := clamp_index len stop in
  firstn (Z.to_nat (b - a)) (skipn (Z.to_nat a) s).

(** [range(0, stop)] *)
Definition range (stop : Z) : list Z := map Z.of_nat (seq 0 (Z.to_nat stop)).

Section FmtOutput.

(** [indent] and [chunk_size = ncol - len(indent)], the variables of the
    enclosing function that [_fmt_output] reads. *)
Variable indent : list ascii.
Variable chunk_size : Z.

(** The [for] loop of [_fmt_output]; the result is the lines printed. *)
Fixpoint fmt_loop (line : list ascii) (indices : list Z) (next_start : Z)
  : list (list ascii) :=
  match indices with
  | [] => []
  | i :: rest =>
      let cur_start := next_start in
      let next_start := chunk_size * (i + 1) in
      (indent ++ slice line cur_start next_start)
        :: fmt_loop line rest next_start
  end.

Definition _fmt_output (line : list Byte.byte)
  : raising output_error (list (list ascii)) :=
  match decode_ascii line with
  | Raises e => Raises e
  | Returns line =>
      let len := Z.of_nat (List.length line) in
      if chunk_size =? 0 then Raises ZeroDivisionError
      else
        let nchunks := len / chunk_size in
        let remainder := len mod chunk_size in
        Returns (fmt_loop line
                   (range (nchunks + (if remainder >? 0 then 1 else 0))) 0)
  end.

(** The [while True] loop of [_pretty_subprocess_run] over the successive
    results of [proc.stdout.readline()]; past the end of [reads] the stream
    is at its end and [readline] returns [b'']. The result is the lines
    printed and the exception that ended the loop, if any. *)
Fixpoint read_loop (reads : list (list Byte.byte))
  : list (list ascii) * option output_error :=
  match reads with
  | [] => ([], None)
  | line :: rest =>
      match line with
      | [] => ([], None)
      | _ :: _ =>
          if Byte.eqb (last line Byte.x00) Byte.x0a
          then match _fmt_output (removelast line) with
               | Raises e => ([], Some e)
               | Returns printed =>
                   let (more, err) := read_loop rest in (printed ++ more, err)
               end
          else match _fmt_output line with
               | Raises e => ([], Some e)
               | Returns printed => (printed, None)
               end
      end
  end.

End FmtOutput.

(** * Properties *)

(** ** Arithmetic of the components *)

Lemma forallb_is_zero (t : triple Q) :
  forallb is_zero (elems t) = true <-> all_zero t.
Proof.
  unfold all_zero, elems, is_zero; simpl.
  rewrite !andb_true_iff, !Qeq_bool_iff. tauto.
Qed.

Lemma total_proc_product (c : ProblemCase) :
  total_proc c =
  ax0 (nproc_grid_xyz c) * ax1 (nproc_grid_xyz c) * ax2 (nproc_grid_xyz c).
Proof.
  unfold total_proc, _prod, elems; simpl.
  destruct (ax0 (nproc_grid_xyz c)); reflexivity.
Qed.

Lemma positive_total (c : ProblemCase) :
  positive_triple (nproc_grid_xyz c) -> 0 < total_proc c.
Proof.
  intros (H0 & H1 & H2). rewrite total_proc_product.
  apply Z.mul_pos_pos; [apply Z.mul_pos_pos|]; assumption.
Qed.

Lemma ratio_doubled (cells parts : Z) :
  (ratio (cells * 2) (parts * 2) == ratio cells parts)%Q.
Proof.
  unfold ratio. destruct (Z.eq_dec parts 0) as [->|Hne].
  - simpl. unfold Qdiv, Qinv; simpl. rewrite !Qmult_0_r. reflexivity.
  - rewrite !inject_Z_mult. field.
    intro H. apply Hne. unfold Qeq in H; simpl in H. lia.
Qed.

(** ** What [_next_case] returns *)

Lemma select_transform_Ok (r : ScaleRule) (b : branch) :
  select_transform r = Ok b ->
  (r = X_AXIS /\ b = Branch_X_AXIS) \/ (r = Z_AXIS /\ b = Branch_Z_AXIS).
Proof.
  destruct r; simpl; intros H; inversion H; auto.
Qed.

Lemma next_case_Ok (c c' : ProblemCase) (o : OriginLoc) (r : ScaleRule) :
  _next_case c o r = Ok c' ->
  exists b,
    select_transform r = Ok b /\
    grid_width_xyz c' = generic_transform b (grid_width_xyz c) /\
    grid_shape_xyz c' = generic_transform b (grid_shape_xyz c) /\
    nproc_grid_xyz c' = generic_transform b (nproc_grid_xyz c) /\
    match o with
    | LEFT => all_zero (grid_left_xyz c) /\ grid_left_xyz c' = grid_left_xyz c
    | CENTER => grid_left_xyz c' = generic_transform b (grid_left_xyz c)
    end.
Proof.
  unfold _next_case.
  destruct (select_transform r) as [b|e]; cbn [bind]; [|discriminate].
  destruct o.
  - destruct (forallb is_zero (elems (grid_left_xyz c))) eqn:Hz; cbn [bind];
      [|discriminate].
    intros H; inversion H; subst; cbn. exists b.
    rewrite forallb_is_zero in Hz. auto 10.
  - cbn [bind]. intros H; inversion H; subst; cbn. exists b. auto 10.
Qed.

Lemma next_case_raises (c : ProblemCase) (o : OriginLoc) (r : ScaleRule) (e : exn) :
  _next_case c o r = Raise e ->
  e = AttributeError "XY_AXIS" \/ e = AssertionError Assert_grid_left_zero.
Proof.
  unfold _next_case. destruct r; cbn [select_transform bind].
  3: intros H; inversion H; auto.
  all: destruct o; cbn [bind]; try discriminate;
    destruct (forallb is_zero (elems (grid_left_xyz c))); cbn [bind];
    try discriminate; intros H; inversion H; auto.
Qed.

Lemma next_case_total (c c' : ProblemCase) (o : OriginLoc) (r : ScaleRule) :
  _next_case c o r = Ok c' -> total_proc c' = 2 * total_proc c.
Proof.
  intros H. apply next_case_Ok in H as (b & Hb & _ & _ & Hn & _).
  rewrite !total_proc_product, Hn.
  apply select_transform_Ok in Hb as [[_ ->]|[_ ->]];
    unfold generic_transform, times2, Times2_int, ax0, ax1, ax2;
    cbn [fst snd]; ring.
Qed.

(** The origin rule of [LEFT] on the two rules whose branch is selected. *)
Lemma next_case_LEFT (c : ProblemCase) (r : ScaleRule) :
  r <> XY_PLANE ->
  (_next_case c LEFT r = Raise (AssertionError Assert_grid_left_zero)
     <-> ~ all_zero (grid_left_xyz c)) /\
  (all_zero (grid_left_xyz c) ->
     exists c', _next_case c LEFT r = Ok c' /\
                grid_left_xyz c' = grid_left_xyz c).
Proof.
  intros Hr. rewrite <- forallb_is_zero. unfold _next_case.
  destruct r; try congruence; cbn [select_transform bind];
    destruct (forallb is_zero (elems (grid_left_xyz c))); cbn [bind];
    (split; [split; [congruence | intros H; try reflexivity; exfalso; auto]
            | intros H; try discriminate; eexists; split; reflexivity ]).
Qed.

(** The body under [elif scale_rule == ScaleRule.XY_AXIS] takes the new
    axis-1 component from axis 2. *)
Lemma XY_AXIS_body (a b c : Z) :
  generic_transform Branch_XY_AXIS (a, b, c) = (a * 2, c * 2, c).
Proof. reflexivity. Qed.

(** C1 (code defect).  With the rule [XY_PLANE], [_next_case] returns no
    case at all: the third test of the [if]/[elif] chain names the missing
    member [ScaleRule.XY_AXIS], so every call raises [AttributeError],
    whatever the case and the origin policy.  The specification asks for a
    case whose axis-0 and axis-1 components are doubled and whose axis-2
    components are unchanged, as does the comment on [XY_PLANE] in the
    source. *)
Theorem next_case_XY_PLANE_raises (c : ProblemCase) (o : OriginLoc) :
  _next_case c o XY_PLANE = Raise (AttributeError "XY_AXIS").
Proof. reflexivity. Qed.

(** C4 (code defect).  Under [LEFT], with every component of [grid_left_xyz]
    equal to zero, the rule [XY_PLANE] still makes [_next_case] fail, and
    not on the assertion about the origin: the specification asks for a case
    with [grid_left_xyz] unchanged.  On [X_AXIS] and [Z_AXIS] the origin
    rule is as specified, see [next_case_LEFT]. *)
Theorem next_case_LEFT_zero_origin_XY_PLANE :
  all_zero (grid_left_xyz scenario_base) /\
  _next_case scenario_base LEFT XY_PLANE = Raise (AttributeError "XY_AXIS") /\
  forall c', _next_case scenario_base LEFT XY_PLANE <> Ok c'.
Proof.
  split; [|split].
  - unfold all_zero; simpl. repeat split; reflexivity.
  - reflexivity.
  - intros c' H. discriminate H.
Qed.

Ltac unfold_transform :=
  unfold scaled_int, scaled_float, generic_transform, times2, Times2_int,
    Times2_float, ax0, ax1, ax2;
  cbn [fst snd].

Lemma generic_transform_scaled_float (b : branch) (t : triple Q) :
  (b = Branch_X_AXIS -> scaled_float (2, 1, 1) t (generic_transform b t)) /\
  (b = Branch_Z_AXIS -> scaled_float (1, 1, 2) t (generic_transform b t)).
Proof.
  split; intros ->;
    unfold scaled_float, generic_transform, times2, Times2_float, ax0, ax1, ax2;
    cbn [fst snd]; repeat split; try reflexivity;
    (rewrite Qmult_1_r; reflexivity).
Qed.

(** Co-scaling on the rules whose branch is selected.  Whenever
    [_next_case] returns a case, one pattern of per-axis multipliers,
    [(2,1,1)] or [(1,1,2)], has been applied to [grid_width_xyz],
    [grid_shape_xyz] and [nproc_grid_xyz] alike, so that along every axis
    the quotient of [grid_shape_xyz] by [nproc_grid_xyz] is the same in the
    returned case as in the given one (as exact quotients and, equivalently,
    by cross-multiplication).  The rule is then [X_AXIS] or [Z_AXIS]. *)
Lemma next_case_coscales (c c' : ProblemCase) (o : OriginLoc) (r : ScaleRule) :
  _next_case c o r = Ok c' ->
  r <> XY_PLANE /\
  (exists m : triple Z,
     (m = (2, 1, 1) \/ m = (1, 1, 2)) /\
     scaled_float m (grid_width_xyz c) (grid_width_xyz c') /\
     scaled_int m (grid_shape_xyz c) (grid_shape_xyz c') /\
     scaled_int m (nproc_grid_xyz c) (nproc_grid_xyz c')) /\
  same_workload c c' /\
  ax0 (grid_shape_xyz c') * ax0 (nproc_grid_xyz c) =
    ax0 (grid_shape_xyz c) * ax0 (nproc_grid_xyz c') /\
  ax1 (grid_shape_xyz c') * ax1 (nproc_grid_xyz c) =
    ax1 (grid_shape_xyz c) * ax1 (nproc_grid_xyz c') /\
  ax2 (grid_shape_xyz c') * ax2 (nproc_grid_xyz c) =
    ax2 (grid_shape_xyz c) * ax2 (nproc_grid_xyz c').
Proof.
  intros H. apply next_case_Ok in H as (b & Hb & Hw & Hs & Hn & _).
  unfold same_workload. rewrite Hs, Hn.
  apply select_transform_Ok in Hb as [[-> ->]|[-> ->]];
    (split; [discriminate|]); (split; [|split]).
  - exists (2, 1, 1). rewrite Hw. split; [auto|]. split; [|split].
    + apply generic_transform_scaled_float; reflexivity.
    + unfold_transform; repeat split; ring.
    + unfold_transform; repeat split; ring.
  - unfold_transform. repeat split; try reflexivity. apply ratio_doubled.
  - unfold_transform. repeat split; ring.
  - exists (1, 1, 2). rewrite Hw. split; [auto|]. split; [|split].
    + apply generic_transform_scaled_float; reflexivity.
    + unfold_transform; repeat split; ring.
    + unfold_transform; repeat split; ring.
  - unfold_transform. repeat split; try reflexivity. apply ratio_doubled.
  - unfold_transform. repeat split; ring.
Qed.

Lemma next_case_coscales_witness :
  _next_case scenario_base LEFT X_AXIS = Ok scenario_nproc2 /\
  same_workload scenario_base scenario_nproc2.
Proof.
  split; [reflexivity|].
  exact (proj1 (proj2 (proj2
           (next_case_coscales scenario_base scenario_nproc2 LEFT X_AXIS
              eq_refl)))).
Defined.

(** C5 (code defect).  The co-scaling of the three fields does not extend to
    every scale rule.  With [XY_PLANE] the call raises [AttributeError]
    before any field is transformed, under either origin policy, so that no
    case is returned.  The body written for that rule would not keep the
    cells per partition either: it takes the new axis-1 component from
    axis 2, and on a grid of shape [(350, 700, 350)] split as [(1, 1, 1)]
    the quotient along axis 1 would go from 700 to 350.  On [X_AXIS] and
    [Z_AXIS] the fields co-scale, see [next_case_coscales]. *)
Theorem next_case_XY_PLANE_no_coscaling :
  _next_case scenario_base CENTER XY_PLANE = Raise (AttributeError "XY_AXIS") /\
  (forall o c', _next_case scenario_base o XY_PLANE <> Ok c') /\
  (ratio (ax1 (350, 700, 350)%Z) (ax1 (1, 1, 1)%Z) == 700)%Q /\
  (ratio (ax1 (generic_transform Branch_XY_AXIS (350, 700, 350)%Z))
         (ax1 (generic_transform Branch_XY_AXIS (1, 1, 1)%Z)) == 350)%Q.
Proof.
  split; [reflexivity|]. split; [|split].
  - intros o c' H. discriminate H.
  - reflexivity.
  - reflexivity.
Qed.

(** C6.  From a case whose [grid_left_xyz] is zero on every axis under
    [LEFT], or from any case under [CENTER], two successive calls of
    [_next_case] with [X_AXIS] both return, and the second result has the
    axis-0 components of [grid_width_xyz], [grid_shape_xyz] and
    [nproc_grid_xyz] equal to four times those of the first argument, with
    the axis-1 and axis-2 components of these fields unchanged. *)
Theorem next_case_X_AXIS_twice (c : ProblemCase) (o : OriginLoc) :
  (o = LEFT -> all_zero (grid_left_xyz c)) ->
  exists c1 c2,
    _next_case c o X_AXIS = Ok c1 /\
    _next_case c1 o X_AXIS = Ok c2 /\
    (ax0 (grid_width_xyz c2) == ax0 (grid_width_xyz c) * 4)%Q /\
    ax0 (grid_shape_xyz c2) = ax0 (grid_shape_xyz c) * 4 /\
    ax0 (nproc_grid_xyz c2) = ax0 (nproc_grid_xyz c) * 4 /\
    ax1 (grid_width_xyz c2) = ax1 (grid_width_xyz c) /\
    ax1 (grid_shape_xyz c2) = ax1 (grid_shape_xyz c) /\
    ax1 (nproc_grid_xyz c2) = ax1 (nproc_grid_xyz c) /\
    ax2 (grid_width_xyz c2) = ax2 (grid_width_xyz c) /\
    ax2 (grid_shape_xyz c2) = ax2 (grid_shape_xyz c) /\
    ax2 (nproc_grid_xyz c2) = ax2 (nproc_grid_xyz c).
Proof.
  intros Hzero.
  assert (Hret : forall d, (o = LEFT -> all_zero (grid_left_xyz d)) ->
            exists d', _next_case d o X_AXIS = Ok d' /\
              grid_width_xyz d' = generic_transform Branch_X_AXIS (grid_width_xyz d) /\
              grid_shape_xyz d' = generic_transform Branch_X_AXIS (grid_shape_xyz d) /\
              nproc_grid_xyz d' = generic_transform Branch_X_AXIS (nproc_grid_xyz d) /\
              (o = LEFT -> grid_left_xyz d' = grid_left_xyz d)).
  { intros d Hd. unfold _next_case. cbn [select_transform bind].
    destruct o.
    - rewrite (proj2 (forallb_is_zero _) (Hd eq_refl)). cbn [bind].
      eexists; split; [reflexivity|]. cbn. auto.
    - cbn [bind]. eexists; split; [reflexivity|]. cbn.
      repeat split; try reflexivity. discriminate. }
  destruct (Hret c Hzero) as (c1 & H1 & Hw1 & Hs1 & Hn1 & Hl1).
  destruct (Hret c1) as (c2 & H2 & Hw2 & Hs2 & Hn2 & _).
  { intros ->. rewrite (Hl1 eq_refl). auto. }
  exists c1, c2. split; [exact H1|]. split; [exact H2|].
  rewrite Hw2, Hs2, Hn2, Hw1, Hs1, Hn1. unfold_transform.
  repeat split; try reflexivity; try ring.
Qed.

Lemma next_case_X_AXIS_twice_witness :
  all_zero (grid_left_xyz scenario_base) /\
  exists c1 c2,
    _next_case scenario_base LEFT X_AXIS = Ok c1 /\
    _next_case c1 LEFT X_AXIS = Ok c2 /\
    ax0 (nproc_grid_xyz c2) = 4.
Proof.
  assert (Hz : all_zero (grid_left_xyz scenario_base)).
  { unfold all_zero; cbn. repeat split; reflexivity. }
  split; [exact Hz|].
  destruct (next_case_X_AXIS_twice scenario_base LEFT (fun _ => Hz))
    as (c1 & c2 & H1 & H2 & _ & _ & Hn & _).
  exists c1, c2. repeat split; assumption.
Defined.

(** ** The generator *)

Section GeneratorFacts.

Variable base_case : ProblemCase.
Variable origin_loc : OriginLoc.
Variable scale_rule : ScaleRule.
Variable max_proc : Z.
Variable min_generated_proc : Z.
Variable include_base_case : bool.

Let next c := _next_case c origin_loc scale_rule.
Let run' := run base_case origin_loc scale_rule max_proc
              min_generated_proc include_base_case.
Let iter := iter_next origin_loc scale_rule.
Let chain' := chain origin_loc scale_rule.
Let keep := above_floor min_generated_proc.

Lemma check_arguments_Ok :
  check_arguments base_case max_proc min_generated_proc = Ok tt <->
  preconditions base_case max_proc min_generated_proc.
Proof.
  unfold check_arguments, preconditions.
  destruct (1 <=? max_proc) eqn:H1; cbn [negb].
  2: { split; [discriminate|]. apply Z.leb_gt in H1. lia. }
  destruct (0 <=? min_generated_proc) eqn:H2; cbn [negb andb].
  2: { split; [discriminate|]. apply Z.leb_gt in H2. lia. }
  destruct (min_generated_proc <=? max_proc) eqn:H3; cbn [negb].
  2: { split; [discriminate|]. apply Z.leb_gt in H3. lia. }
  destruct (total_proc base_case <=? max_proc) eqn:H4; cbn [negb].
  2: { split; [discriminate|]. apply Z.leb_gt in H4. lia. }
  apply Z.leb_le in H1, H2, H3, H4. split; [lia | reflexivity].
Qed.

Lemma check_arguments_Raise (e : exn) :
  check_arguments base_case max_proc min_generated_proc = Raise e ->
  exists site, e = AssertionError site /\ build_cases_assert site.
Proof.
  unfold check_arguments, build_cases_assert.
  repeat match goal with
         | |- context [if ?b then _ else _] => destruct b
         end;
    intros H; inversion H; eauto 6.
Qed.

Lemma run_entry (fuel : nat) :
  preconditions base_case max_proc min_generated_proc ->
  run' (S fuel) At_entry =
    ((if include_base_case then [base_case] else [])
       ++ fst (run' fuel (At_loop base_case)),
     snd (run' fuel (At_loop base_case))).
Proof.
  intros Hpre. apply check_arguments_Ok in Hpre.
  unfold run'. cbn [run gen_step]. rewrite Hpre.
  destruct include_base_case;
    destruct (run _ _ _ _ _ _ fuel (At_loop base_case)); reflexivity.
Qed.

(** One turn of the [while True] loop from the binding [c]. *)
Lemma run_loop (fuel : nat) (c c' : ProblemCase) :
  next c = Ok c' ->
  run' (S fuel) (At_loop c) =
    if total_proc c' <? min_generated_proc then run' fuel (At_loop c')
    else if total_proc c' >? max_proc then ([], Returned)
    else (c' :: fst (run' fuel (At_loop c')), snd (run' fuel (At_loop c'))).
Proof.
  unfold next, run'. intros H. cbn [run gen_step]. rewrite H. cbv zeta.
  destruct (total_proc c' <? min_generated_proc); [reflexivity|].
  destruct (total_proc c' >? max_proc); [reflexivity|].
  destruct (run _ _ _ _ _ _ fuel (At_loop c')); reflexivity.
Qed.

Lemma run_loop_raise (fuel : nat) (c : ProblemCase) (e : exn) :
  next c = Raise e -> run' (S fuel) (At_loop c) = ([], Failed e).
Proof.
  unfold next, run'. intros H. cbn [run gen_step]. rewrite H. reflexivity.
Qed.

Lemma iter_S (n : nat) (c c' : ProblemCase) :
  next c = Ok c' -> iter (S n) c = iter n c'.
Proof. unfold next, iter. intros H. cbn [iter_next]. rewrite H. reflexivity. Qed.

Lemma iter_S_Ok (n : nat) (c d : ProblemCase) :
  iter (S n) c = Ok d -> exists c', next c = Ok c' /\ iter n c' = Ok d.
Proof.
  unfold next, iter. cbn [iter_next].
  destruct (_next_case c origin_loc scale_rule) as [c'|e]; cbn [bind];
    [eauto | discriminate].
Qed.

Lemma chain_S (n : nat) (c c' : ProblemCase) :
  next c = Ok c' -> chain' (S n) c = c' :: chain' n c'.
Proof. unfold next, chain'. intros H. cbn [chain]. rewrite H. reflexivity. Qed.

Lemma in_chain (n : nat) :
  forall c x, In x (chain' n c) ->
    exists i, (1 <= i <= n)%nat /\ iter i c = Ok x.
Proof.
  induction n as [|n IH]; intros c x Hin; [contradiction|].
  unfold chain' in Hin. cbn [chain] in Hin.
  destruct (_next_case c origin_loc scale_rule) as [c'|e] eqn:Hc;
    [|contradiction].
  destruct Hin as [<-|Hin].
  - exists 1%nat. split; [lia|]. rewrite (iter_S 0 c c' Hc). reflexivity.
  - apply IH in Hin as (i & Hi & Hx). exists (S i). split; [lia|].
    rewrite (iter_S i c c' Hc). exact Hx.
Qed.

Lemma chain_last (n : nat) :
  forall c x, iter (S n) c = Ok x -> In x (chain' (S n) c).
Proof.
  induction n as [|n IH]; intros c x Hx;
    apply iter_S_Ok in Hx as (c' & Hc & Hx); rewrite (chain_S _ c c' Hc).
  - inversion Hx; subst. left; reflexivity.
  - right. apply IH. exact Hx.
Qed.

(** As long as the derived cases stay within [max_proc], the loop yields
    those of them that reach the floor and goes on from the last one. *)
Lemma run_loop_prefix (j : nat) :
  forall c cj fuel,
    iter j c = Ok cj ->
    (forall i ci, (1 <= i <= j)%nat -> iter i c = Ok ci ->
                  total_proc ci <= max_proc) ->
    run' (j + fuel) (At_loop c) =
      (filter keep (chain' j c) ++ fst (run' fuel (At_loop cj)),
       snd (run' fuel (At_loop cj))).
Proof.
  induction j as [|j IH]; intros c cj fuel Hj Hle.
  - inversion Hj; subst. cbn. destruct (run' fuel (At_loop cj)); reflexivity.
  - apply iter_S_Ok in Hj as (c' & Hc & Hj).
    assert (Hc' : total_proc c' <= max_proc).
    { apply (Hle 1%nat); [lia|]. rewrite (iter_S 0 c c' Hc). reflexivity. }
    assert (Hle' : forall i ci, (1 <= i <= j)%nat -> iter i c' = Ok ci ->
                                total_proc ci <= max_proc).
    { intros i ci Hi Hci. apply (Hle (S i)); [lia|].
      rewrite (iter_S i c c' Hc). exact Hci. }
    specialize (IH c' cj fuel Hj Hle').
    cbn [Nat.add]. rewrite (run_loop _ c c' Hc), (chain_S _ c c' Hc).
    cbn [filter]. unfold keep at 1, above_floor.
    destruct (total_proc c' <? min_generated_proc) eqn:Hlow.
    + apply Z.ltb_lt in Hlow.
      replace (min_generated_proc <=? total_proc c') with false
        by (symmetry; apply Z.leb_gt; lia).
      exact IH.
    + apply Z.ltb_ge in Hlow.
      replace (min_generated_proc <=? total_proc c') with true
        by (symmetry; apply Z.leb_le; lia).
      replace (total_proc c' >? max_proc) with false
        by (symmetry; rewrite Z.gtb_ltb; apply Z.ltb_ge; lia).
      rewrite IH. reflexivity.
Qed.

End GeneratorFacts.

Lemma iter_snoc (o : OriginLoc) (r : ScaleRule) (n : nat) :
  forall c d, iter_next o r (S n) c = Ok d ->
    exists c', iter_next o r n c = Ok c' /\ _next_case c' o r = Ok d.
Proof.
  induction n as [|n IH]; intros c d H.
  - apply iter_S_Ok in H as (c' & Hc & Hd). inversion Hd; subst.
    exists c. split; [reflexivity | exact Hc].
  - apply iter_S_Ok in H as (c' & Hc & Hd).
    apply IH in Hd as (c'' & Hc'' & Hd).
    exists c''. split; [|exact Hd]. rewrite (iter_S _ _ _ _ _ Hc). exact Hc''.
Qed.

Lemma build_cases_until_first_above (base : ProblemCase) (o : OriginLoc)
  (r : ScaleRule) (max_proc min_proc : Z) (incl : bool) (k : nat)
  (ck : ProblemCase) (fuel : nat) :
  preconditions base max_proc min_proc ->
  first_above_max_proc base o r max_proc k ck ->
  (k < fuel)%nat ->
  build_cases base o r max_proc min_proc incl fuel =
    ((if incl then [base] else [])
       ++ filter (above_floor min_proc) (chain o r (k - 1) base),
     Returned).
Proof.
  intros Hpre (Hk & Hck & Hgt & Hle) Hfuel.
  destruct k as [|j]; [lia|]. replace (S j - 1)%nat with j by lia.
  replace fuel with (S (j + S (fuel - j - 2))) by lia.
  apply iter_snoc in Hck as (cj & Hcj & Hnext).
  unfold build_cases. rewrite (run_entry _ _ _ _ _ _ _ Hpre).
  rewrite (run_loop_prefix base o r max_proc min_proc incl j base cj _ Hcj).
  2: { intros i ci Hi. apply Hle. lia. }
  rewrite (run_loop _ _ _ _ _ _ _ _ _ Hnext).
  destruct Hpre as (_ & Hmin & _).
  replace (total_proc ck <? min_proc) with false
    by (symmetry; apply Z.ltb_ge; lia).
  replace (total_proc ck >? max_proc) with true
    by (symmetry; rewrite Z.gtb_ltb; apply Z.ltb_lt; lia).
  cbn [fst snd]. rewrite app_nil_r. reflexivity.
Qed.

(** C2.  Under the three preconditions of [build_cases]:
    - if [ck] is the first derived case whose [total_proc] is strictly above
      [max_proc], reached after [k] calls of [_next_case], then with any
      fuel above [k] the generator returns, having yielded the base case
      (when asked to) followed by the derived cases before [ck] that reach
      the floor, and [ck] is not among the yielded cases;
    - a derived case with [total_proc] equal to [max_proc], none before it
      being above [max_proc], is yielded;
    - in the scenario of the specification ([max_proc = 4], rule [X_AXIS],
      origin [LEFT]) the sequence is the base case, then the case with
      [nproc_grid_xyz = (2,1,1)], then the one with [(4,1,1)], and the
      generator returns. *)
Theorem build_cases_stops_above_max_proc :
  (forall base o r max_proc min_proc incl k ck fuel,
      preconditions base max_proc min_proc ->
      first_above_max_proc base o r max_proc k ck ->
      (k < fuel)%nat ->
      build_cases base o r max_proc min_proc incl fuel =
        ((if incl then [base] else [])
           ++ filter (above_floor min_proc) (chain o r (k - 1) base),
         Returned) /\
      ~ In ck (fst (build_cases base o r max_proc min_proc incl fuel))) /\
  (forall base o r max_proc min_proc incl j cj fuel,
      preconditions base max_proc min_proc ->
      (1 <= j)%nat ->
      iter_next o r j base = Ok cj ->
      (forall i ci, (1 <= i <= j)%nat -> iter_next o r i base = Ok ci ->
                    total_proc ci <= max_proc) ->
      total_proc cj = max_proc ->
      (j < fuel)%nat ->
      In cj (fst (build_cases base o r max_proc min_proc incl fuel))) /\
  (forall fuel, (4 <= fuel)%nat ->
      build_cases scenario_base LEFT X_AXIS 4 1 true fuel =
        ([scenario_base; scenario_nproc2; scenario_nproc4], Returned)).
Proof.
  split; [|split].
  - intros base o r max_proc min_proc incl k ck fuel Hpre Hfirst Hfuel.
    rewrite (build_cases_until_first_above _ _ _ _ _ _ _ _ _ Hpre Hfirst Hfuel).
    split; [reflexivity|]. cbn [fst].
    destruct Hfirst as (Hk & Hck & Hgt & Hle). destruct Hpre as (_ & _ & Hbase).
    intros Hin. apply in_app_or in Hin as [Hin|Hin].
    + destruct incl; [|contradiction]. destruct Hin as [->|[]]. lia.
    + apply filter_In in Hin as [Hin _].
      apply in_chain in Hin as (i & Hi & Hci).
      assert (total_proc ck <= max_proc) by (apply (Hle i); [lia | exact Hci]).
      lia.
  - intros base o r max_proc min_proc incl j cj fuel Hpre Hj Hcj Hle Hmax Hfuel.
    replace fuel with (S (j + (fuel - j - 1))) by lia.
    unfold build_cases. rewrite (run_entry _ _ _ _ _ _ _ Hpre).
    rewrite (run_loop_prefix base o r max_proc min_proc incl j base cj _ Hcj Hle).
    cbn [fst]. apply in_or_app; right. apply in_or_app; left.
    apply filter_In. split.
    + destruct j as [|j]; [lia|]. apply chain_last. exact Hcj.
    + unfold above_floor. apply Z.leb_le. destruct Hpre as (_ & Hmin & _). lia.
  - intros fuel Hfuel.
    do 4 (destruct fuel as [|fuel]; [lia|]). reflexivity.
Qed.

Lemma build_cases_stops_above_max_proc_witness :
  preconditions scenario_base 4 1 /\
  first_above_max_proc scenario_base LEFT X_AXIS 4 3
    {| grid_left_xyz := (0, 0, 0)%Q;
       grid_width_xyz := (16, 2, 2)%Q;
       grid_shape_xyz := (2800, 350, 350);
       nproc_grid_xyz := (8, 1, 1) |} /\
  build_cases scenario_base LEFT X_AXIS 4 1 true 4 =
    ([scenario_base] ++
       filter (above_floor 1) (chain LEFT X_AXIS (3 - 1) scenario_base),
     Returned) /\
  In scenario_nproc4 (fst (build_cases scenario_base LEFT X_AXIS 4 1 true 4)).
Proof.
  assert (Hpre : preconditions scenario_base 4 1).
  { unfold preconditions. cbn. lia. }
  assert (Hfirst : first_above_max_proc scenario_base LEFT X_AXIS 4 3
            {| grid_left_xyz := (0, 0, 0)%Q;
               grid_width_xyz := (16, 2, 2)%Q;
               grid_shape_xyz := (2800, 350, 350);
               nproc_grid_xyz := (8, 1, 1) |}).
  { split; [lia|]. split; [reflexivity|]. split; [cbn; lia|].
    intros i ci Hi Hci.
    assert (Hcases : i = 1%nat \/ i = 2%nat) by lia.
    destruct Hcases as [->| ->]; inversion Hci; subst; cbn; lia. }
  assert (Hle : forall i ci, (1 <= i <= 2)%nat ->
            iter_next LEFT X_AXIS i scenario_base = Ok ci -> total_proc ci <= 4).
  { intros i ci Hi Hci.
    assert (Hcases : i = 1%nat \/ i = 2%nat) by lia.
    destruct Hcases as [->| ->]; inversion Hci; subst; cbn; lia. }
  split; [exact Hpre|]. split; [exact Hfirst|]. split.
  - exact (proj1 (proj1 build_cases_stops_above_max_proc
                    scenario_base LEFT X_AXIS 4 1 true 3%nat _ 4%nat
                    Hpre Hfirst (le_n 4))).
  - exact (proj1 (proj2 build_cases_stops_above_max_proc)
             scenario_base LEFT X_AXIS 4 1 true 2%nat scenario_nproc4 4%nat
             Hpre (le_S _ _ (le_n 1)) eq_refl Hle eq_refl
             (le_S _ _ (le_n 3))).
Defined.

(** From the loop head with a positive [total_proc], every yielded case
    lies strictly above the current one and within [max_proc], and the
    yielded totals increase strictly. *)
Lemma run_loop_increasing (base : ProblemCase) (o : OriginLoc) (r : ScaleRule)
  (max_proc min_proc : Z) (incl : bool) (fuel : nat) :
  forall c, 0 < total_proc c ->
    let yielded := fst (run base o r max_proc min_proc incl fuel (At_loop c)) in
    Forall (fun y => total_proc c < total_proc y <= max_proc) yielded /\
    StronglySorted Z.lt (map total_proc yielded).
Proof.
  induction fuel as [|fuel IH]; intros c Hpos; cbv zeta.
  - cbn. split; constructor.
  - destruct (_next_case c o r) as [c'|e] eqn:Hc.
    2: { rewrite (run_loop_raise _ _ _ _ _ _ _ _ _ Hc). cbn. split; constructor. }
    rewrite (run_loop _ _ _ _ _ _ _ _ _ Hc).
    pose proof (next_case_total _ _ _ _ Hc) as Htot.
    assert (Hpos' : 0 < total_proc c') by lia.
    destruct (IH c' Hpos') as [Hall Hsorted].
    assert (Hall' : Forall (fun y => total_proc c < total_proc y <= max_proc)
              (fst (run base o r max_proc min_proc incl fuel (At_loop c')))).
    { eapply Forall_impl; [|exact Hall]. cbv beta. intros y Hy. lia. }
    destruct (total_proc c' <? min_proc); [split; assumption|].
    destruct (total_proc c' >? max_proc) eqn:Hgt; [cbn; split; constructor|].
    rewrite Z.gtb_ltb in Hgt. apply Z.ltb_ge in Hgt.
    cbn [fst map]. split.
    + constructor; [lia | exact Hall'].
    + constructor; [exact Hsorted|].
      apply Forall_map. eapply Forall_impl; [|exact Hall].
      cbv beta. intros y Hy. lia.
Qed.

(** C3.  For a base case with a positive process grid and arguments that
    satisfy the three preconditions, whatever the fuel, every yielded case
    has [total_proc <= max_proc] and the totals of the yielded cases, in the
    order of the yields, increase strictly. *)
Theorem build_cases_bounded_increasing (base : ProblemCase) (o : OriginLoc)
  (r : ScaleRule) (max_proc min_proc : Z) (incl : bool) (fuel : nat) :
  preconditions base max_proc min_proc ->
  positive_triple (nproc_grid_xyz base) ->
  let yielded := fst (build_cases base o r max_proc min_proc incl fuel) in
  Forall (fun c => total_proc c <= max_proc) yielded /\
  StronglySorted Z.lt (map total_proc yielded).
Proof.
  intros Hpre Hpos. cbv zeta. apply positive_total in Hpos.
  destruct fuel as [|fuel]; [cbn; split; constructor|].
  unfold build_cases. rewrite (run_entry _ _ _ _ _ _ _ Hpre). cbn [fst].
  destruct (run_loop_increasing base o r max_proc min_proc incl fuel base Hpos)
    as [Hall Hsorted].
  destruct Hpre as (_ & _ & Hbase).
  assert (Hall' : Forall (fun c => total_proc c <= max_proc)
            (fst (run base o r max_proc min_proc incl fuel (At_loop base)))).
  { eapply Forall_impl; [|exact Hall]. cbv beta. intros y Hy. lia. }
  destruct incl; cbn [app map].
  - split.
    + constructor; assumption.
    + constructor; [exact Hsorted|].
      apply Forall_map. eapply Forall_impl; [|exact Hall].
      cbv beta. intros y Hy. lia.
  - split; assumption.
Qed.

Lemma build_cases_bounded_increasing_witness :
  preconditions scenario_base 4 1 /\
  positive_triple (nproc_grid_xyz scenario_base) /\
  Forall (fun c => total_proc c <= 4)
    (fst (build_cases scenario_base LEFT X_AXIS 4 1 true 4)) /\
  StronglySorted Z.lt
    (map total_proc (fst (build_cases scenario_base LEFT X_AXIS 4 1 true 4))).
Proof.
  assert (Hpre : preconditions scenario_base 4 1).
  { unfold preconditions. cbn. lia. }
  assert (Hpos : positive_triple (nproc_grid_xyz scenario_base)).
  { unfold positive_triple. cbn. lia. }
  split; [exact Hpre|]. split; [exact Hpos|].
  exact (build_cases_bounded_increasing scenario_base LEFT X_AXIS 4 1 true 4
           Hpre Hpos).
Defined.

(** With the rule [X_AXIS] or [Z_AXIS], an origin that passes the assertion
    of [LEFT] and a positive [total_proc] within [max_proc], some derived
    case is the first one above [max_proc]. *)
Lemma first_above_max_proc_exists (o : OriginLoc) (r : ScaleRule)
  (max_proc : Z) (n : nat) :
  r <> XY_PLANE ->
  forall c,
    (o = LEFT -> all_zero (grid_left_xyz c)) ->
    0 < total_proc c ->
    max_proc - total_proc c < Z.of_nat n ->
    exists k ck, first_above_max_proc c o r max_proc k ck.
Proof.
  intros Hr. induction n as [|n IH]; intros c Hzero Hpos Hgap.
  all: assert (Hnext : exists c', _next_case c o r = Ok c' /\
                         (o = LEFT -> all_zero (grid_left_xyz c')));
    [ destruct o;
      [ destruct (proj2 (next_case_LEFT c r Hr) (Hzero eq_refl)) as (c' & Hc & Hl);
        exists c'; split; [exact Hc | intros _; rewrite Hl; auto]
      | unfold _next_case; destruct r; try congruence;
        cbn [select_transform bind]; eexists; (split; [reflexivity | discriminate]) ]
    | destruct Hnext as (c' & Hc & Hzero');
      pose proof (next_case_total _ _ _ _ Hc) as Htot ].
  - exists 1%nat, c'. split; [lia|]. split; [|split; [lia | intros i ci Hi; lia]].
    rewrite (iter_S _ _ 0 c c' Hc). reflexivity.
  - destruct (Z_lt_le_dec max_proc (total_proc c')) as [Hgt|Hle].
    + exists 1%nat, c'. split; [lia|]. split; [|split; [lia | intros i ci Hi; lia]].
      rewrite (iter_S _ _ 0 c c' Hc). reflexivity.
    + destruct (IH c' Hzero') as (k & ck & Hk & Hck & Hgt & Hbefore); [lia | lia |].
      exists (S k), ck. split; [lia|]. split; [|split; [exact Hgt|]].
      * rewrite (iter_S _ _ k c c' Hc). exact Hck.
      * intros i ci Hi Hci. destruct i as [|i]; [lia|].
        rewrite (iter_S _ _ i c c' Hc) in Hci.
        destruct i as [|i].
        -- inversion Hci; subst. exact Hle.
        -- apply (Hbefore (S i)); [lia | exact Hci].
Qed.

(** Each successful call of [_next_case] doubles the processes, so the
    case reached after [n] calls has [2^n] times those of the first one. *)
Lemma iter_next_total (o : OriginLoc) (r : ScaleRule) (n : nat) :
  forall c c', iter_next o r n c = Ok c' ->
    total_proc c' = 2 ^ Z.of_nat n * total_proc c.
Proof.
  induction n as [|n IH]; intros c c' H.
  - inversion H; subst. change (2 ^ Z.of_nat 0) with 1. ring.
  - apply iter_S_Ok in H as (c1 & H1 & Hn).
    rewrite (IH _ _ Hn), (next_case_total _ _ _ _ H1).
    rewrite Nat2Z.inj_succ, Z.pow_succ_r by lia. ring.
Qed.

(** The derived cases before a derived case exist. *)
Lemma iter_next_earlier (o : OriginLoc) (r : ScaleRule) (n : nat) :
  forall c d m, iter_next o r n c = Ok d -> (m <= n)%nat ->
    exists e, iter_next o r m c = Ok e.
Proof.
  induction n as [|n IH]; intros c d m H Hm.
  - replace m with 0%nat by lia. exists d. exact H.
  - destruct (Nat.eq_dec m (S n)) as [->|Hne]; [exists d; exact H|].
    apply iter_snoc in H as (c' & Hc' & _).
    apply (IH c c' m Hc'). lia.
Qed.

(** The [j]-th derived case is among the first [n >= j] derived cases. *)
Lemma iter_next_in_chain (o : OriginLoc) (r : ScaleRule) (n : nat) :
  forall c j x, (1 <= j <= n)%nat -> iter_next o r j c = Ok x ->
    In x (chain o r n c).
Proof.
  induction n as [|n IH]; intros c j x Hj Hx; [lia|].
  destruct j as [|j]; [lia|].
  apply iter_S_Ok in Hx as (c1 & Hc1 & Hx).
  rewrite (chain_S _ _ _ _ _ Hc1).
  destruct j as [|j].
  - inversion Hx; subst. left; reflexivity.
  - right. apply (IH c1 (S j) x); [lia | exact Hx].
Qed.

(** C7.  In the loop, a derived case whose [total_proc] is below
    [min_generated_proc] produces no value and becomes the binding of [case]
    from which the next turn derives: the rest of the run is the run from
    that case.  With [include_base_case] set and the preconditions met, the
    first step yields [base_case], whatever its [total_proc] relative to
    [min_generated_proc], and the loop starts from it.

    On a whole run that reaches a first derived case [ck] above [max_proc],
    after [k] calls of [_next_case]: the run returns; with
    [include_base_case] the first value yielded is the base case, also when
    it is below the floor; the [i]-th derived case, [i < k], has [2^i]
    times the processes of the base case; it is absent from the values
    yielded when it is below the floor and present when it is not; and
    whether it was yielded or skipped, the next derived case is the result
    of [_next_case] on it.  With the rule [X_AXIS] or [Z_AXIS], an origin
    that passes the test of [LEFT] and a positive process grid, there is
    such a first derived case above [max_proc]. *)
Theorem build_cases_floor (base : ProblemCase) (o : OriginLoc) (r : ScaleRule)
  (max_proc min_proc : Z) :
  (forall incl c c' fuel,
      _next_case c o r = Ok c' ->
      total_proc c' < min_proc ->
      gen_step base o r max_proc min_proc incl (At_loop c)
        = (Silent, At_loop c') /\
      run base o r max_proc min_proc incl (S fuel) (At_loop c)
        = run base o r max_proc min_proc incl fuel (At_loop c')) /\
  (preconditions base max_proc min_proc ->
   gen_step base o r max_proc min_proc true At_entry
     = (Yield base, At_loop base) /\
   forall fuel,
     fst (build_cases base o r max_proc min_proc true (S fuel)) =
       base :: fst (run base o r max_proc min_proc true fuel (At_loop base))) /\
  (forall incl k ck fuel,
      preconditions base max_proc min_proc ->
      first_above_max_proc base o r max_proc k ck ->
      (k < fuel)%nat ->
      let yielded := fst (build_cases base o r max_proc min_proc incl fuel) in
      snd (build_cases base o r max_proc min_proc incl fuel) = Returned /\
      (incl = true -> exists rest, yielded = base :: rest) /\
      forall i c, (1 <= i < k)%nat -> iter_next o r i base = Ok c ->
        total_proc c = 2 ^ Z.of_nat i * total_proc base /\
        (total_proc c < min_proc -> ~ In c yielded) /\
        (min_proc <= total_proc c -> In c yielded) /\
        exists c', _next_case c o r = Ok c' /\
                   iter_next o r (S i) base = Ok c' /\
                   total_proc c' = 2 * total_proc c) /\
  (preconditions base max_proc min_proc ->
   r <> XY_PLANE ->
   (o = LEFT -> all_zero (grid_left_xyz base)) ->
   positive_triple (nproc_grid_xyz base) ->
   exists k ck, first_above_max_proc base o r max_proc k ck).
Proof.
  split; [|split; [|split]].
  4: { intros Hpre Hr Hzero Hpos. apply positive_total in Hpos.
       apply (first_above_max_proc_exists o r max_proc
                (S (Z.to_nat (max_proc - total_proc base))) Hr base Hzero Hpos).
       lia. }
  - intros incl c c' fuel Hc Hlow.
    assert (Hstep : gen_step base o r max_proc min_proc incl (At_loop c)
                    = (Silent, At_loop c')).
    { cbn [gen_step]. rewrite Hc. cbv zeta.
      apply Z.ltb_lt in Hlow. rewrite Hlow. reflexivity. }
    split; [exact Hstep|]. cbn [run]. rewrite Hstep. reflexivity.
  - intros Hpre. split.
    + cbn [gen_step]. apply check_arguments_Ok in Hpre. rewrite Hpre. reflexivity.
    + intros fuel. unfold build_cases.
      rewrite (run_entry _ _ _ _ _ _ _ Hpre). reflexivity.
  - intros incl k ck fuel Hpre Hfirst Hfuel. cbv zeta.
    rewrite (build_cases_until_first_above _ _ _ _ _ _ _ _ _ Hpre Hfirst Hfuel).
    cbn [fst snd].
    destruct Hfirst as (Hk & Hck & Hgt & Hle).
    pose proof (iter_next_total _ _ _ _ _ Hck) as Htck.
    assert (Hpow : forall n, 0 < 2 ^ Z.of_nat n)
      by (intros n; apply Z.pow_pos_nonneg; lia).
    assert (Hpos : 0 < total_proc base).
    { destruct Hpre as (Hmax & _ & _). specialize (Hpow k). nia. }
    split; [reflexivity|]. split.
    { intros ->. eexists. reflexivity. }
    intros i c Hi Hc.
    pose proof (iter_next_total _ _ _ _ _ Hc) as Htc.
    split; [exact Htc|]. split; [|split].
    + intros Hlow Hin. apply in_app_or in Hin as [Hin|Hin].
      * destruct incl; [|contradiction]. destruct Hin as [Hin|[]]. subst c.
        assert (2 <= 2 ^ Z.of_nat i).
        { replace i with (S (i - 1)) by lia.
          rewrite Nat2Z.inj_succ, Z.pow_succ_r by lia.
          specialize (Hpow (i - 1)%nat). lia. }
        nia.
      * apply filter_In in Hin as [_ Hin]. unfold above_floor in Hin.
        apply Z.leb_le in Hin. lia.
    + intros Hhigh. apply in_or_app; right. apply filter_In. split.
      * apply (iter_next_in_chain o r (k - 1) base i c); [lia | exact Hc].
      * unfold above_floor. apply Z.leb_le. exact Hhigh.
    + destruct (iter_next_earlier o r k base ck (S i) Hck) as (c' & Hc');
        [lia|].
      exists c'. destruct (iter_snoc _ _ _ _ _ Hc') as (c0 & Hc0 & Hnext).
      assert (c0 = c) by congruence. subst c0.
      split; [exact Hnext|]. split; [exact Hc'|].
      exact (next_case_total _ _ _ _ Hnext).
Qed.

(** With a floor of three processes and a ceiling of four, the derived case
    on two processes is skipped, the one on four, derived from it, is
    yielded, and the base case, on one process, comes first. *)
Lemma build_cases_floor_witness :
  preconditions scenario_base 4 3 /\
  total_proc scenario_base < 3 /\
  first_above_max_proc scenario_base LEFT X_AXIS 4 3
    {| grid_left_xyz := (0, 0, 0)%Q;
       grid_width_xyz := (16, 2, 2)%Q;
       grid_shape_xyz := (2800, 350, 350);
       nproc_grid_xyz := (8, 1, 1) |} /\
  build_cases scenario_base LEFT X_AXIS 4 3 true 4
    = ([scenario_base; scenario_nproc4], Returned) /\
  iter_next LEFT X_AXIS 1 scenario_base = Ok scenario_nproc2 /\
  total_proc scenario_nproc2 < 3 /\
  ~ In scenario_nproc2 (fst (build_cases scenario_base LEFT X_AXIS 4 3 true 4)) /\
  _next_case scenario_nproc2 LEFT X_AXIS = Ok scenario_nproc4 /\
  In scenario_nproc4 (fst (build_cases scenario_base LEFT X_AXIS 4 3 true 4)) /\
  fst (build_cases scenario_base LEFT X_AXIS 4 3 true 4) =
    scenario_base ::
      fst (run scenario_base LEFT X_AXIS 4 3 true 3 (At_loop scenario_base)) /\
  all_zero (grid_left_xyz scenario_base) /\
  positive_triple (nproc_grid_xyz scenario_base) /\
  exists k ck, first_above_max_proc scenario_base LEFT X_AXIS 4 k ck.
Proof.
  assert (Hpre : preconditions scenario_base 4 3).
  { unfold preconditions. cbn. lia. }
  assert (Hfirst : first_above_max_proc scenario_base LEFT X_AXIS 4 3
            {| grid_left_xyz := (0, 0, 0)%Q;
               grid_width_xyz := (16, 2, 2)%Q;
               grid_shape_xyz := (2800, 350, 350);
               nproc_grid_xyz := (8, 1, 1) |}).
  { split; [lia|]. split; [reflexivity|]. split; [cbn; lia|].
    intros i ci Hi Hci.
    assert (Hcases : i = 1%nat \/ i = 2%nat) by lia.
    destruct Hcases as [->| ->]; inversion Hci; subst; cbn; lia. }
  assert (Hlow : total_proc scenario_nproc2 < 3) by (cbn; lia).
  assert (Hhigh : 3 <= total_proc scenario_nproc4) by (cbn; lia).
  destruct (proj1 (proj2 (proj2 (build_cases_floor scenario_base LEFT X_AXIS 4 3)))
              true 3%nat _ 4%nat Hpre Hfirst (le_n 4))
    as (_ & _ & Hderived).
  destruct (Hderived 1%nat scenario_nproc2 (conj (le_n 1) (le_S _ _ (le_n 2)))
              eq_refl) as (_ & Habsent & _ & _).
  destruct (Hderived 2%nat scenario_nproc4 (conj (le_S _ _ (le_n 1)) (le_n 3))
              eq_refl) as (_ & _ & Hpresent & _).
  split; [exact Hpre|]. split; [cbn; lia|]. split; [exact Hfirst|].
  split; [reflexivity|]. split; [reflexivity|]. split; [exact Hlow|].
  split; [exact (Habsent Hlow)|]. split; [reflexivity|].
  split; [exact (Hpresent Hhigh)|].
  split.
  { exact (proj2 (proj1 (proj2 (build_cases_floor scenario_base LEFT X_AXIS 4 3))
                    Hpre) 3%nat). }
  assert (Hz : all_zero (grid_left_xyz scenario_base)).
  { unfold all_zero; cbn. repeat split; reflexivity. }
  assert (Hpos : positive_triple (nproc_grid_xyz scenario_base)).
  { unfold positive_triple. cbn. lia. }
  assert (Hr : X_AXIS <> XY_PLANE) by discriminate.
  split; [exact Hz|]. split; [exact Hpos|].
  exact (proj2 (proj2 (proj2 (build_cases_floor scenario_base LEFT X_AXIS 4 3)))
           Hpre Hr (fun _ => Hz) Hpos).
Defined.

(** An exception that ends the loop comes from [_next_case]. *)
Lemma run_loop_failure (base : ProblemCase) (o : OriginLoc) (r : ScaleRule)
  (max_proc min_proc : Z) (incl : bool) (fuel : nat) :
  forall c e,
    snd (run base o r max_proc min_proc incl fuel (At_loop c)) = Failed e ->
    e = AttributeError "XY_AXIS" \/ e = AssertionError Assert_grid_left_zero.
Proof.
  induction fuel as [|fuel IH]; intros c e H; [discriminate H|].
  destruct (_next_case c o r) as [c'|e'] eqn:Hc.
  - rewrite (run_loop _ _ _ _ _ _ _ _ _ Hc) in H.
    destruct (total_proc c' <? min_proc); [exact (IH _ _ H)|].
    destruct (total_proc c' >? max_proc); [discriminate H|].
    cbn [snd] in H. exact (IH _ _ H).
  - rewrite (run_loop_raise _ _ _ _ _ _ _ _ _ Hc) in H.
    inversion H; subst. exact (next_case_raises _ _ _ _ Hc).
Qed.

(** C8.  When [max_proc < 1], or [min_generated_proc] is outside
    [0 .. max_proc], or the base case has more than [max_proc] processes,
    the first step of the generator raises the [AssertionError] of one of
    the three [assert] statements of [build_cases], so that the run fails
    with it and has yielded nothing.  When the three preconditions hold,
    no run fails on one of these three assertions. *)
Theorem build_cases_preconditions (base : ProblemCase) (o : OriginLoc)
  (r : ScaleRule) (max_proc min_proc : Z) (incl : bool) :
  (max_proc < 1 \/ min_proc < 0 \/ max_proc < min_proc \/
   max_proc < total_proc base ->
   exists site,
     build_cases_assert site /\
     gen_step base o r max_proc min_proc incl At_entry
       = (Raised (AssertionError site), At_exit) /\
     forall fuel,
       build_cases base o r max_proc min_proc incl (S fuel)
         = ([], Failed (AssertionError site))) /\
  (preconditions base max_proc min_proc ->
   check_arguments base max_proc min_proc = Ok tt /\
   forall fuel site,
     snd (build_cases base o r max_proc min_proc incl fuel)
       = Failed (AssertionError site) ->
     ~ build_cases_assert site).
Proof.
  split.
  - intros Hbad.
    destruct (check_arguments base max_proc min_proc) as [[]|e] eqn:Hchk.
    + apply check_arguments_Ok in Hchk. unfold preconditions in Hchk. lia.
    + destruct (check_arguments_Raise _ _ _ _ Hchk) as (site & -> & Hsite).
      exists site. split; [exact Hsite|].
      assert (Hstep : gen_step base o r max_proc min_proc incl At_entry
                      = (Raised (AssertionError site), At_exit)).
      { cbn [gen_step]. rewrite Hchk. reflexivity. }
      split; [exact Hstep|]. intros fuel. unfold build_cases. cbn [run].
      rewrite Hstep. reflexivity.
  - intros Hpre. split; [apply check_arguments_Ok; exact Hpre|].
    intros fuel site H.
    destruct fuel as [|fuel]; [discriminate H|].
    unfold build_cases in H. rewrite (run_entry _ _ _ _ _ _ _ Hpre) in H.
    cbn [snd] in H. apply run_loop_failure in H as [H|H]; [discriminate H|].
    inversion H; subst. unfold build_cases_assert.
    intros [H'|[H'|H']]; discriminate H'.
Qed.

Lemma build_cases_preconditions_witness :
  (3 < total_proc scenario_nproc4 /\
   exists site, build_cases_assert site /\
     build_cases scenario_nproc4 LEFT X_AXIS 3 1 true 1
       = ([], Failed (AssertionError site))) /\
  (preconditions scenario_base 4 1 /\
   check_arguments scenario_base 4 1 = Ok tt).
Proof.
  split.
  - split; [cbn; lia|].
    destruct (proj1 (build_cases_preconditions scenario_nproc4 LEFT X_AXIS 3 1 true))
      as (site & Hsite & _ & Hrun).
    + right; right; right. cbn. lia.
    + exists site. split; [exact Hsite | exact (Hrun 0%nat)].
  - assert (Hpre : preconditions scenario_base 4 1).
    { unfold preconditions. cbn. lia. }
    split; [exact Hpre|].
    exact (proj1 (proj2 (build_cases_preconditions scenario_base LEFT X_AXIS 4 1 true)
                    Hpre)).
Defined.

(** The generator returns.  With the rule [X_AXIS] or [Z_AXIS], an origin
    that passes the assertion of [LEFT], a positive process grid and the
    three preconditions, [max_proc] steps after the first are enough fuel
    for the run to end with [Returned]. *)
Lemma run_loop_returns (base : ProblemCase) (o : OriginLoc) (r : ScaleRule)
  (max_proc min_proc : Z) (incl : bool) (n : nat) :
  r <> XY_PLANE ->
  min_proc <= max_proc ->
  forall c,
    (o = LEFT -> all_zero (grid_left_xyz c)) ->
    0 < total_proc c ->
    max_proc - total_proc c < Z.of_nat n ->
    snd (run base o r max_proc min_proc incl (S n) (At_loop c)) = Returned.
Proof.
  intros Hr Hmin. induction n as [|n IH]; intros c Hzero Hpos Hgap.
  all: assert (Hnext : exists c', _next_case c o r = Ok c' /\
                         (o = LEFT -> all_zero (grid_left_xyz c')));
    [ destruct o;
      [ destruct (proj2 (next_case_LEFT c r Hr) (Hzero eq_refl)) as (c' & Hc & Hl);
        exists c'; split; [exact Hc | intros _; rewrite Hl; auto]
      | unfold _next_case; destruct r; try congruence;
        cbn [select_transform bind]; eexists; (split; [reflexivity | discriminate]) ]
    | destruct Hnext as (c' & Hc & Hzero');
      pose proof (next_case_total _ _ _ _ Hc) as Htot;
      rewrite (run_loop _ _ _ _ _ _ _ _ _ Hc) ].
  - replace (total_proc c' <? min_proc) with false
      by (symmetry; apply Z.ltb_ge; lia).
    replace (total_proc c' >? max_proc) with true
      by (symmetry; rewrite Z.gtb_ltb; apply Z.ltb_lt; lia).
    reflexivity.
  - assert (Hrec : snd (run base o r max_proc min_proc incl (S n) (At_loop c'))
                   = Returned) by (apply IH; [exact Hzero' | lia | lia]).
    destruct (total_proc c' <? min_proc); [exact Hrec|].
    destruct (total_proc c' >? max_proc); [reflexivity|]. exact Hrec.
Qed.

Lemma build_cases_returns (base : ProblemCase) (o : OriginLoc) (r : ScaleRule)
  (max_proc min_proc : Z) (incl : bool) :
  preconditions base max_proc min_proc ->
  positive_triple (nproc_grid_xyz base) ->
  r <> XY_PLANE ->
  (o = LEFT -> all_zero (grid_left_xyz base)) ->
  snd (build_cases base o r max_proc min_proc incl (S (S (Z.to_nat max_proc))))
    = Returned.
Proof.
  intros Hpre Hpos Hr Hzero. apply positive_total in Hpos.
  unfold build_cases. rewrite (run_entry _ _ _ _ _ _ _ Hpre). cbn [snd].
  destruct Hpre as (Hmax & Hmin & Hbase).
  apply run_loop_returns; try assumption; lia.
Qed.

(** ** The two input files of a problem *)

(** The five parts of the statement below, on a directory whose files
    have been enumerated. *)
Ltac scan_case :=
  split; [split | split; [| split; [| split]]];
  [ intros (m & p & H); first [discriminate H | split; reflexivity]
  | intros [H1 H2];
    first [discriminate H1 | discriminate H2 | (eexists; eexists; reflexivity)]
  | intros m p H; first [discriminate H | idtac]
  | intros H; first [reflexivity | exfalso; apply H; reflexivity]
  | intros H1 H2; first [reflexivity | discriminate H1 | discriminate H2]
  | intros H1 H2; first [reflexivity | discriminate H1 | discriminate H2] ].

(** C10.  Let [files] be the entries of the input directory that are
    files.  The method returns a pair exactly when [files] has two entries
    of which exactly one has a name starting with ["make.type."]; the pair
    is then the path of that entry followed by the path of the other one,
    whatever their order in the directory.  It raises [RuntimeError] when
    [files] does not have two entries, when it has two and neither name has
    the prefix, and when it has two and both names have it. *)
Theorem maketype_and_param_paths_spec (it : list DirEntry.t) :
  let files := filter DirEntry.is_file it in
  ((exists m p, maketype_and_param_paths it = Ok (m, p)) <->
   (List.length files = 2%nat /\ count_prefixed files = 1%nat)) /\
  (forall m p, maketype_and_param_paths it = Ok (m, p) ->
     exists fm fp,
       (files = [fm; fp] \/ files = [fp; fm]) /\
       has_prefix fm = true /\ has_prefix fp = false /\
       m = DirEntry.path fm /\ p = DirEntry.path fp) /\
  (List.length files <> 2%nat ->
     maketype_and_param_paths it = Raise (RuntimeError Expect_exactly_2_files)) /\
  (List.length files = 2%nat -> count_prefixed files = 0%nat ->
     maketype_and_param_paths it = Raise (RuntimeError No_maketype_file)) /\
  (List.length files = 2%nat -> count_prefixed files = 2%nat ->
     maketype_and_param_paths it = Raise (RuntimeError All_maketype_files)).
Proof.
  unfold maketype_and_param_paths, count_prefixed, has_prefix. cbv zeta.
  generalize (filter DirEntry.is_file it) as files. clear it.
  intros [|a [|b [|c rest]]].
  - cbn. scan_case.
  - cbn. destruct (startswith (DirEntry.name a) _MAKETYPE_PREFIX); cbn;
      scan_case.
  - cbn.
    destruct (startswith (DirEntry.name a) _MAKETYPE_PREFIX) eqn:Ha;
      destruct (startswith (DirEntry.name b) _MAKETYPE_PREFIX) eqn:Hb; cbn;
      scan_case.
    + inversion H; subst. exists a, b. auto 10.
    + inversion H; subst. exists b, a. auto 10.
  - cbn. destruct (startswith (DirEntry.name a) _MAKETYPE_PREFIX);
      destruct (startswith (DirEntry.name b) _MAKETYPE_PREFIX); cbn;
      scan_case.
Qed.

(** Four directories: the two expected files beside a sub-directory, no
    file at all, two files without the prefix, two files with it. *)
Lemma maketype_and_param_paths_spec_witness :
  maketype_and_param_paths
    [ DirEntry.mk "sound.txt" "sound/sound.txt" true;
      DirEntry.mk "__pycache__" "sound/__pycache__" false;
      DirEntry.mk "make.type.hydro" "sound/make.type.hydro" true ]
    = Ok ("sound/make.type.hydro", "sound/sound.txt")%string /\
  maketype_and_param_paths []
    = Raise (RuntimeError Expect_exactly_2_files) /\
  maketype_and_param_paths
    [ DirEntry.mk "a.txt" "sound/a.txt" true;
      DirEntry.mk "b.txt" "sound/b.txt" true ]
    = Raise (RuntimeError No_maketype_file) /\
  maketype_and_param_paths
    [ DirEntry.mk "make.type.hydro" "sound/make.type.hydro" true;
      DirEntry.mk "make.type.mhd" "sound/make.type.mhd" true ]
    = Raise (RuntimeError All_maketype_files).
Proof.
  split; [|split; [|split]].
  - destruct (proj1 (proj2 (maketype_and_param_paths_spec
        [ DirEntry.mk "sound.txt" "sound/sound.txt" true;
          DirEntry.mk "__pycache__" "sound/__pycache__" false;
          DirEntry.mk "make.type.hydro" "sound/make.type.hydro" true ]))
        "sound/make.type.hydro"%string "sound/sound.txt"%string eq_refl)
      as (fm & fp & _ & _ & _ & _ & _).
    reflexivity.
  - apply (proj1 (proj2 (proj2 (maketype_and_param_paths_spec [])))).
    discriminate.
  - apply (proj1 (proj2 (proj2 (proj2 (maketype_and_param_paths_spec
        [ DirEntry.mk "a.txt" "sound/a.txt" true;
          DirEntry.mk "b.txt" "sound/b.txt" true ]))))); reflexivity.
  - apply (proj2 (proj2 (proj2 (proj2 (maketype_and_param_paths_spec
        [ DirEntry.mk "make.type.hydro" "sound/make.type.hydro" true;
          DirEntry.mk "make.type.mhd" "sound/make.type.mhd" true ]))))); reflexivity.
Defined.

(** ** The store refines the values *)

Lemma extends_refl (h : Heap.heap) : Heap.extends h h.
Proof. exists []. symmetry. apply app_nil_r. Qed.

Lemma extends_trans (h1 h2 h3 : Heap.heap) :
  Heap.extends h1 h2 -> Heap.extends h2 h3 -> Heap.extends h1 h3.
Proof.
  intros [n1 ->] [n2 ->]. exists (n1 ++ n2). symmetry. apply app_assoc.
Qed.

Lemma extends_alloc (h : Heap.heap) (ob : Heap.object) :
  Heap.extends h (fst (Heap.alloc h ob)).
Proof. exists [ob]. reflexivity. Qed.

Lemma extends_nth_error (h h' : Heap.heap) (r : Heap.ref) (ob : Heap.object) :
  Heap.extends h h' -> nth_error h r = Some ob -> nth_error h' r = Some ob.
Proof.
  intros [new ->] H. rewrite nth_error_app1; [exact H|].
  apply nth_error_Some. congruence.
Qed.

Lemma alloc_new (h : Heap.heap) (ob : Heap.object) :
  nth_error (fst (Heap.alloc h ob)) (snd (Heap.alloc h ob)) = Some ob.
Proof.
  unfold Heap.alloc; cbn [fst snd].
  rewrite nth_error_app2 by lia. rewrite Nat.sub_diag. reflexivity.
Qed.

Lemma extends_get_float (h h' : Heap.heap) (r : Heap.ref) (t : triple Q) :
  Heap.extends h h' -> Heap.get_float h r = Some t -> Heap.get_float h' r = Some t.
Proof.
  unfold Heap.get_float. intros He H.
  destruct (nth_error h r) as [ob|] eqn:Hr; [|discriminate].
  rewrite (extends_nth_error _ _ _ _ He Hr). exact H.
Qed.

Lemma extends_get_int (h h' : Heap.heap) (r : Heap.ref) (t : triple Z) :
  Heap.extends h h' -> Heap.get_int h r = Some t -> Heap.get_int h' r = Some t.
Proof.
  unfold Heap.get_int. intros He H.
  destruct (nth_error h r) as [ob|] eqn:Hr; [|discriminate].
  rewrite (extends_nth_error _ _ _ _ He Hr). exact H.
Qed.

Lemma extends_get_case (h h' : Heap.heap) (r : Heap.ref)
  (f : Heap.ref * Heap.ref * Heap.ref * Heap.ref) :
  Heap.extends h h' -> Heap.get_case h r = Some f -> Heap.get_case h' r = Some f.
Proof.
  unfold Heap.get_case. intros He H.
  destruct (nth_error h r) as [ob|] eqn:Hr; [|discriminate].
  rewrite (extends_nth_error _ _ _ _ He Hr). exact H.
Qed.

(** A reference keeps its value when the store grows. *)
Lemma extends_load_case (h h' : Heap.heap) (r : Heap.ref) (c : ProblemCase) :
  Heap.extends h h' -> Heap.load_case h r = Some c -> Heap.load_case h' r = Some c.
Proof.
  unfold Heap.load_case. intros He H.
  destruct (Heap.get_case h r) as [[[[l w] s] n]|] eqn:Hc; [|discriminate].
  rewrite (extends_get_case _ _ _ _ He Hc).
  destruct (Heap.get_float h l) as [tl|] eqn:Hl; [|discriminate].
  destruct (Heap.get_float h w) as [tw|] eqn:Hw; [|discriminate].
  destruct (Heap.get_int h s) as [ts|] eqn:Hs; [|discriminate].
  destruct (Heap.get_int h n) as [tn|] eqn:Hn; [|discriminate].
  rewrite (extends_get_float _ _ _ _ He Hl), (extends_get_float _ _ _ _ He Hw),
    (extends_get_int _ _ _ _ He Hs), (extends_get_int _ _ _ _ He Hn).
  exact H.
Qed.

Lemma get_float_alloc (h : Heap.heap) (t : triple Q) :
  Heap.get_float (fst (Heap.alloc h (Heap.Tuple_float t)))
    (snd (Heap.alloc h (Heap.Tuple_float t))) = Some t.
Proof. unfold Heap.get_float. rewrite alloc_new. reflexivity. Qed.

Lemma get_int_alloc (h : Heap.heap) (t : triple Z) :
  Heap.get_int (fst (Heap.alloc h (Heap.Tuple_int t)))
    (snd (Heap.alloc h (Heap.Tuple_int t))) = Some t.
Proof. unfold Heap.get_int. rewrite alloc_new. reflexivity. Qed.

Lemma load_case_alloc (h : Heap.heap) (l w s n : Heap.ref)
  (tl tw : triple Q) (ts tn : triple Z) :
  Heap.get_float h l = Some tl -> Heap.get_float h w = Some tw ->
  Heap.get_int h s = Some ts -> Heap.get_int h n = Some tn ->
  Heap.load_case (fst (Heap.alloc h (Heap.Case l w s n)))
    (snd (Heap.alloc h (Heap.Case l w s n))) =
    Some {| grid_left_xyz := tl; grid_width_xyz := tw;
            grid_shape_xyz := ts; nproc_grid_xyz := tn |}.
Proof.
  intros Hl Hw Hs Hn.
  pose proof (extends_alloc h (Heap.Case l w s n)) as He.
  unfold Heap.load_case, Heap.get_case. rewrite alloc_new.
  rewrite (extends_get_float _ _ _ _ He Hl), (extends_get_float _ _ _ _ He Hw),
    (extends_get_int _ _ _ _ He Hs), (extends_get_int _ _ _ _ He Hn).
  reflexivity.
Qed.

(** On a reference that denotes [c], [Heap.next_case] does what
    [_next_case] does on [c]: it raises the same exception, or it returns a
    reference that denotes the returned case, in a store that only grew. *)
Lemma heap_next_case_refines (h : Heap.heap) (a : Heap.ref) (c : ProblemCase)
  (o : OriginLoc) (r : ScaleRule) :
  Heap.load_case h a = Some c ->
  match _next_case c o r with
  | Ok c' =>
      exists h' a',
        Heap.next_case h a o r = Some (Ok (h', a')) /\
        Heap.extends h h' /\ Heap.load_case h' a' = Some c'
  | Raise e => Heap.next_case h a o r = Some (Raise e)
  end.
Proof.
  unfold Heap.load_case, Heap.next_case, _next_case. intros H.
  destruct (Heap.get_case h a) as [[[[l w] s] n]|]; [|discriminate].
  destruct (Heap.get_float h l) as [tl|] eqn:Hl; [|discriminate].
  destruct (Heap.get_float h w) as [tw|] eqn:Hw; [|discriminate].
  destruct (Heap.get_int h s) as [ts|] eqn:Hs; [|discriminate].
  destruct (Heap.get_int h n) as [tn|] eqn:Hn; [|discriminate].
  inversion H; subst c; clear H. cbn [grid_left_xyz grid_width_xyz
    grid_shape_xyz nproc_grid_xyz].
  destruct (select_transform r) as [b|e]; cbn [bind]; [|reflexivity].
  set (ow := Heap.Tuple_float (generic_transform b tw)).
  set (os := Heap.Tuple_int (generic_transform b ts)).
  set (on := Heap.Tuple_int (generic_transform b tn)).
  set (h1 := fst (Heap.alloc h ow)).
  set (h2 := fst (Heap.alloc h1 os)).
  set (h3 := fst (Heap.alloc h2 on)).
  assert (E1 : Heap.extends h h1) by apply extends_alloc.
  assert (E2 : Heap.extends h1 h2) by apply extends_alloc.
  assert (E3 : Heap.extends h2 h3) by apply extends_alloc.
  assert (Gw : Heap.get_float h3 (snd (Heap.alloc h ow))
               = Some (generic_transform b tw)).
  { apply (extends_get_float h1); [exact (extends_trans _ _ _ E2 E3)|].
    apply get_float_alloc. }
  assert (Gs : Heap.get_int h3 (snd (Heap.alloc h1 os))
               = Some (generic_transform b ts)).
  { apply (extends_get_int h2); [exact E3|]. apply get_int_alloc. }
  assert (Gn : Heap.get_int h3 (snd (Heap.alloc h2 on))
               = Some (generic_transform b tn)) by apply get_int_alloc.
  change (Heap.alloc h ow) with (h1, snd (Heap.alloc h ow)).
  change (Heap.alloc h1 os) with (h2, snd (Heap.alloc h1 os)).
  change (Heap.alloc h2 on) with (h3, snd (Heap.alloc h2 on)).
  cbv iota beta.
  assert (E03 : Heap.extends h h3)
    by exact (extends_trans _ _ _ E1 (extends_trans _ _ _ E2 E3)).
  destruct o.
  - destruct (forallb is_zero (elems tl)); cbn [bind fst snd]; [|reflexivity].
    eexists; eexists. split; [reflexivity|]. split.
    + exact (extends_trans _ _ _ E03 (extends_alloc _ _)).
    + apply load_case_alloc; try assumption.
      exact (extends_get_float _ _ _ _ E03 Hl).
  - cbn [bind].
    set (ol := Heap.Tuple_float (generic_transform b tl)).
    set (h4 := fst (Heap.alloc h3 ol)).
    assert (E4 : Heap.extends h3 h4) by apply extends_alloc.
    eexists; eexists. split; [reflexivity|]. split.
    + exact (extends_trans _ _ _ E03
               (extends_trans _ _ _ E4 (extends_alloc _ _))).
    + apply load_case_alloc.
      * apply get_float_alloc.
      * exact (extends_get_float _ _ _ _ E4 Gw).
      * exact (extends_get_int _ _ _ _ E4 Gs).
      * exact (extends_get_int _ _ _ _ E4 Gn).
Qed.

Lemma heap_run_refines (a0 : Heap.ref) (base : ProblemCase) (o : OriginLoc)
  (r : ScaleRule) (max_proc min_proc : Z) (incl : bool) (fuel : nat) :
  forall h sh sv,
    Heap.load_case h a0 = Some base ->
    frames_agree h sh sv ->
    exists refs h',
      Heap.run a0 o r max_proc min_proc incl fuel h sh
        = Some (refs, h', snd (run base o r max_proc min_proc incl fuel sv)) /\
      Heap.extends h h' /\
      map (Heap.load_case h') refs
        = map Some (fst (run base o r max_proc min_proc incl fuel sv)).
Proof.
  induction fuel as [|fuel IH]; intros h sh sv Hbase Hst.
  - exists [], h. cbn. auto using extends_refl.
  - destruct sh as [|a|], sv as [|c|]; try contradiction; cbn [Heap.run run].
    + (* entry *)
      cbn [Heap.gen_step gen_step]. rewrite Hbase.
      destruct (check_arguments base max_proc min_proc) as [[]|e].
      2: { exists [], h. cbn. auto using extends_refl. }
      destruct incl.
      * destruct (IH h (Heap.At_loop a0) (At_loop base) Hbase Hbase)
          as (refs & h' & Hrun & He & Hrefs).
        rewrite Hrun. exists (a0 :: refs), h'.
        destruct (run base o r max_proc min_proc true fuel (At_loop base))
          as [ys out]. cbn [fst snd] in *.
        split; [reflexivity|]. split; [exact He|].
        cbn [map]. rewrite Hrefs, (extends_load_case _ _ _ _ He Hbase).
        reflexivity.
      * exact (IH h (Heap.At_loop a0) (At_loop base) Hbase Hbase).
    + (* loop *)
      cbn [Heap.gen_step gen_step]. cbn in Hst.
      pose proof (heap_next_case_refines h a c o r Hst) as Hnext.
      destruct (_next_case c o r) as [c'|e].
      2: { rewrite Hnext. exists [], h. cbn. auto using extends_refl. }
      destruct Hnext as (h1 & a' & -> & He1 & Hc'). rewrite Hc'. cbv zeta.
      pose proof (extends_load_case _ _ _ _ He1 Hbase) as Hbase1.
      destruct (total_proc c' <? min_proc).
      * destruct (IH h1 (Heap.At_loop a') (At_loop c') Hbase1 Hc')
          as (refs & h' & Hrun & He & Hrefs).
        exists refs, h'. split; [exact Hrun|].
        split; [exact (extends_trans _ _ _ He1 He) | exact Hrefs].
      * destruct (total_proc c' >? max_proc).
        { exists [], h1. cbn. auto. }
        destruct (IH h1 (Heap.At_loop a') (At_loop c') Hbase1 Hc')
          as (refs & h' & Hrun & He & Hrefs).
        rewrite Hrun. exists (a' :: refs), h'.
        destruct (run base o r max_proc min_proc incl fuel (At_loop c'))
          as [ys out]. cbn [fst snd] in *.
        split; [reflexivity|]. split; [exact (extends_trans _ _ _ He1 He)|].
        cbn [map]. rewrite Hrefs, (extends_load_case _ _ _ _ He Hc').
        reflexivity.
    + (* exit *)
      cbn [Heap.gen_step gen_step]. exists [], h. cbn. auto using extends_refl.
Qed.

(** C9.  [_next_case] and [build_cases] depend on the value of their
    argument only, and change no object.
    - Two calls of [_next_case] on references that denote the same case, in
      any two stores, raise the same exception or return references that
      denote the same case, the one [_next_case] computes; after the call
      every object of the store is as it was, so that the argument still
      denotes the same case.
    - Two runs of [build_cases] with the same fuel, on base references that
      denote the same case in any two stores, end in the same way and yield
      as many references, which denote the same cases one by one, namely
      the cases that [build_cases] yields on values; at the end every object
      of the initial store is as it was, and the base reference still
      denotes the base case. *)
Theorem build_cases_deterministic_pure :
  (forall h1 a1 h2 a2 c o r,
      Heap.load_case h1 a1 = Some c ->
      Heap.load_case h2 a2 = Some c ->
      match _next_case c o r with
      | Ok c' =>
          exists h1' a1' h2' a2',
            Heap.next_case h1 a1 o r = Some (Ok (h1', a1')) /\
            Heap.next_case h2 a2 o r = Some (Ok (h2', a2')) /\
            Heap.load_case h1' a1' = Some c' /\
            Heap.load_case h2' a2' = Some c' /\
            Heap.extends h1 h1' /\ Heap.extends h2 h2' /\
            Heap.load_case h1' a1 = Some c /\
            Heap.load_case h2' a2 = Some c
      | Raise e =>
          Heap.next_case h1 a1 o r = Some (Raise e) /\
          Heap.next_case h2 a2 o r = Some (Raise e)
      end) /\
  (forall h1 a1 h2 a2 base o r max_proc min_proc incl fuel,
      Heap.load_case h1 a1 = Some base ->
      Heap.load_case h2 a2 = Some base ->
      exists refs1 h1' refs2 h2' out,
        Heap.build_cases a1 o r max_proc min_proc incl fuel h1
          = Some (refs1, h1', out) /\
        Heap.build_cases a2 o r max_proc min_proc incl fuel h2
          = Some (refs2, h2', out) /\
        out = snd (build_cases base o r max_proc min_proc incl fuel) /\
        map (Heap.load_case h1') refs1
          = map Some (fst (build_cases base o r max_proc min_proc incl fuel)) /\
        map (Heap.load_case h2') refs2 = map (Heap.load_case h1') refs1 /\
        Heap.extends h1 h1' /\ Heap.extends h2 h2' /\
        Heap.load_case h1' a1 = Some base /\
        Heap.load_case h2' a2 = Some base).
Proof.
  split.
  - intros h1 a1 h2 a2 c o r H1 H2.
    pose proof (heap_next_case_refines h1 a1 c o r H1) as R1.
    pose proof (heap_next_case_refines h2 a2 c o r H2) as R2.
    destruct (_next_case c o r) as [c'|e]; [|split; assumption].
    destruct R1 as (h1' & a1' & N1 & E1 & L1).
    destruct R2 as (h2' & a2' & N2 & E2 & L2).
    exists h1', a1', h2', a2'.
    repeat (split; [assumption|]).
    split; eapply extends_load_case; eassumption.
  - intros h1 a1 h2 a2 base o r max_proc min_proc incl fuel H1 H2.
    destruct (heap_run_refines a1 base o r max_proc min_proc incl fuel
                h1 Heap.At_entry At_entry H1 I) as (refs1 & h1' & R1 & E1 & M1).
    destruct (heap_run_refines a2 base o r max_proc min_proc incl fuel
                h2 Heap.At_entry At_entry H2 I) as (refs2 & h2' & R2 & E2 & M2).
    exists refs1, h1', refs2, h2',
      (snd (build_cases base o r max_proc min_proc incl fuel)).
    split; [exact R1|]. split; [exact R2|]. split; [reflexivity|].
    split; [exact M1|]. split; [rewrite M1; exact M2|].
    split; [exact E1|]. split; [exact E2|].
    split; eapply extends_load_case; eassumption.
Qed.

(** The base case of the scenario laid out in two different ways. *)
Lemma build_cases_deterministic_pure_witness :
  let h1 := [ Heap.Tuple_float (0, 0, 0)%Q; Heap.Tuple_float (2, 2, 2)%Q;
              Heap.Tuple_int (350, 350, 350); Heap.Tuple_int (1, 1, 1);
              (Heap.Case 0 1 2 3)%nat ] in
  let h2 := [ Heap.Tuple_int (1, 1, 1); Heap.Tuple_int (7, 7, 7);
              Heap.Tuple_float (2, 2, 2)%Q; Heap.Tuple_int (350, 350, 350);
              Heap.Tuple_float (0, 0, 0)%Q; (Heap.Case 4 2 3 0)%nat ] in
  Heap.load_case h1 4%nat = Some scenario_base /\
  Heap.load_case h2 5%nat = Some scenario_base /\
  exists refs1 h1' refs2 h2',
    Heap.build_cases 4%nat LEFT X_AXIS 4 1 true 4%nat h1 = Some (refs1, h1', Returned) /\
    Heap.build_cases 5%nat LEFT X_AXIS 4 1 true 4%nat h2 = Some (refs2, h2', Returned) /\
    map (Heap.load_case h1') refs1
      = [Some scenario_base; Some scenario_nproc2; Some scenario_nproc4] /\
    map (Heap.load_case h2') refs2 = map (Heap.load_case h1') refs1.
Proof.
  intros h1 h2.
  split; [reflexivity|]. split; [reflexivity|].
  destruct (proj2 build_cases_deterministic_pure h1 4%nat h2 5%nat scenario_base
              LEFT X_AXIS 4 1 true 4%nat eq_refl eq_refl)
    as (refs1 & h1' & refs2 & h2' & out & R1 & R2 & Hout & M1 & M2 & _).
  exists refs1, h1', refs2, h2'.
  rewrite R1, R2, Hout. repeat split; assumption.
Defined.

(** * Further properties of [problem_props.py] *)

(** ** [_prod] *)




(** ** [_next_case] *)

(** X2.  [_next_case] fails exactly with the rule [XY_PLANE] or with a nonzero
    origin under [LEFT].  With [XY_PLANE] the exception is the
    [AttributeError], also when the origin is nonzero under [LEFT]: the
    rule is examined first. *)
Theorem next_case_fails_iff (c : ProblemCase) (o : OriginLoc) (r : ScaleRule) :
  ((exists e, _next_case c o r = Raise e) <->
   (r = XY_PLANE \/ (o = LEFT /\ ~ all_zero (grid_left_xyz c)))) /\
  (r = XY_PLANE -> _next_case c o r = Raise (AttributeError "XY_AXIS")) /\
  (r <> XY_PLANE -> o = LEFT -> ~ all_zero (grid_left_xyz c) ->
   _next_case c o r = Raise (AssertionError Assert_grid_left_zero)).
Proof.
  rewrite <- forallb_is_zero. unfold _next_case.
  destruct r, o; cbn [select_transform bind];
    try destruct (forallb is_zero (elems (grid_left_xyz c))); cbn [bind];
    (split; [split|split]);
    try (intros [e H]; discriminate H);
    try (intros [H|[H1 H2]]; try discriminate; exfalso; auto; fail);
    try (intros _; eauto; fail);
    try (intros H; try discriminate H; try reflexivity; exfalso; auto; fail);
    try (intros _ H; try discriminate H; intros H'; try reflexivity;
         exfalso; auto; fail).
Qed.

Lemma next_case_fails_iff_witness :
  _next_case {| grid_left_xyz := (1, 0, 0)%Q; grid_width_xyz := (2, 2, 2)%Q;
                grid_shape_xyz := (350, 350, 350); nproc_grid_xyz := (1, 1, 1) |}
    LEFT Z_AXIS = Raise (AssertionError Assert_grid_left_zero) /\
  _next_case {| grid_left_xyz := (1, 0, 0)%Q; grid_width_xyz := (2, 2, 2)%Q;
                grid_shape_xyz := (350, 350, 350); nproc_grid_xyz := (1, 1, 1) |}
    LEFT XY_PLANE = Raise (AttributeError "XY_AXIS").
Proof.
  split.
  - apply (proj2 (proj2 (next_case_fails_iff _ LEFT Z_AXIS)));
      [discriminate | reflexivity |].
    unfold all_zero; cbn. intros (H & _). discriminate H.
  - apply (proj1 (proj2 (next_case_fails_iff _ LEFT XY_PLANE))). reflexivity.
Defined.





(** ** Repeated calls of [_next_case] *)

Lemma cells_product (c : ProblemCase) :
  cells c =
  ax0 (grid_shape_xyz c) * ax1 (grid_shape_xyz c) * ax2 (grid_shape_xyz c).
Proof.
  unfold cells, _prod, elems; cbn [fold_left].
  destruct (ax0 (grid_shape_xyz c)); reflexivity.
Qed.

Lemma next_case_cells (c c' : ProblemCase) (o : OriginLoc) (r : ScaleRule) :
  _next_case c o r = Ok c' -> cells c' = 2 * cells c.
Proof.
  intros H. apply next_case_Ok in H as (b & Hb & _ & Hs & _ & _).
  rewrite !cells_product, Hs.
  apply select_transform_Ok in Hb as [[_ ->]|[_ ->]];
    unfold generic_transform, times2, Times2_int, ax0, ax1, ax2;
    cbn [fst snd]; ring.
Qed.

Lemma iter_next_totals (o : OriginLoc) (r : ScaleRule) (n : nat) :
  forall c c', iter_next o r n c = Ok c' ->
    total_proc c' = 2 ^ Z.of_nat n * total_proc c /\
    cells c' = 2 ^ Z.of_nat n * cells c.
Proof.
  induction n as [|n IH]; intros c c' H.
  - inversion H; subst. change (2 ^ Z.of_nat 0) with 1. split; ring.
  - apply iter_S_Ok in H as (c1 & H1 & Hn).
    destruct (IH _ _ Hn) as [Ht Hc].
    rewrite Ht, Hc, (next_case_total _ _ _ _ H1), (next_case_cells _ _ _ _ H1).
    rewrite Nat2Z.inj_succ, Z.pow_succ_r by lia. split; ring.
Qed.

Lemma scaled_int_compose (m1 m2 t t1 t2 : triple Z) :
  scaled_int m1 t t1 -> scaled_int m2 t1 t2 ->
  scaled_int (ax0 m1 * ax0 m2, ax1 m1 * ax1 m2, ax2 m1 * ax2 m2) t t2.
Proof.
  unfold scaled_int. intros (A0 & A1 & A2) (B0 & B1 & B2).
  rewrite B0, B1, B2, A0, A1, A2. unfold ax0, ax1, ax2; cbn [fst snd].
  repeat split; ring.
Qed.

Lemma next_case_pattern (c c' : ProblemCase) (o : OriginLoc) (r : ScaleRule) :
  _next_case c o r = Ok c' ->
  let m := match r with X_AXIS => (2, 1, 1) | _ => (1, 1, 2) end in
  scaled_int m (grid_shape_xyz c) (grid_shape_xyz c') /\
  scaled_int m (nproc_grid_xyz c) (nproc_grid_xyz c').
Proof.
  intros H. apply next_case_Ok in H as (b & Hb & _ & Hs & Hn & _).
  rewrite Hs, Hn. cbv zeta.
  apply select_transform_Ok in Hb as [[-> ->]|[-> ->]];
    unfold_transform; repeat split; ring.
Qed.

Lemma iter_next_pattern (o : OriginLoc) (r : ScaleRule) (n : nat) :
  forall c c', iter_next o r n c = Ok c' ->
    let p := 2 ^ Z.of_nat n in
    let m := match r with X_AXIS => (p, 1, 1) | _ => (1, 1, p) end in
    scaled_int m (grid_shape_xyz c) (grid_shape_xyz c') /\
    scaled_int m (nproc_grid_xyz c) (nproc_grid_xyz c').
Proof.
  induction n as [|n IH]; intros c c' H; cbv zeta.
  - inversion H; subst. change (2 ^ Z.of_nat 0) with 1.
    destruct r; unfold scaled_int, ax0, ax1, ax2; cbn [fst snd];
      repeat split; ring.
  - apply iter_S_Ok in H as (c1 & H1 & Hn).
    destruct (next_case_pattern _ _ _ _ H1) as [S1 N1].
    destruct (IH _ _ Hn) as [S2 N2]. cbv zeta in S2, N2.
    pose proof (scaled_int_compose _ _ _ _ _ S1 S2) as S.
    pose proof (scaled_int_compose _ _ _ _ _ N1 N2) as N.
    rewrite Nat2Z.inj_succ, Z.pow_succ_r by lia.
    destruct r; unfold scaled_int, ax0, ax1, ax2 in *; cbn [fst snd] in *;
      (split; [destruct S as (E0 & E1 & E2) | destruct N as (E0 & E1 & E2)]);
      rewrite E0, E1, E2; repeat split; ring.
Qed.

Lemma same_workload_refl (c : ProblemCase) : same_workload c c.
Proof. unfold same_workload. repeat split; reflexivity. Qed.

Lemma same_workload_trans (c1 c2 c3 : ProblemCase) :
  same_workload c1 c2 -> same_workload c2 c3 -> same_workload c1 c3.
Proof.
  unfold same_workload. intros (A0 & A1 & A2) (B0 & B1 & B2).
  rewrite B0, B1, B2. auto.
Qed.

Lemma iter_next_same_workload (o : OriginLoc) (r : ScaleRule) (n : nat) :
  forall c c', iter_next o r n c = Ok c' -> same_workload c c'.
Proof.
  induction n as [|n IH]; intros c c' H.
  - inversion H; subst. apply same_workload_refl.
  - apply iter_S_Ok in H as (c1 & H1 & Hn).
    apply (same_workload_trans _ c1).
    + exact (proj1 (proj2 (proj2 (next_case_coscales _ _ _ _ H1)))).
    + exact (IH _ _ Hn).
Qed.


(** X4.  After [n] successful calls the number of processes and the number of
    cells are both [2^n] times what they were, so that the cells per
    process have not changed; the factor sits on axis 0 of
    [grid_shape_xyz] and [nproc_grid_xyz] with [X_AXIS] and on axis 2 with
    [Z_AXIS], and the cells per partition are the same along every axis. *)
Theorem iter_next_closed_form (o : OriginLoc) (r : ScaleRule) (n : nat)
  (c c' : ProblemCase) :
  iter_next o r n c = Ok c' ->
  let p := 2 ^ Z.of_nat n in
  total_proc c' = p * total_proc c /\
  cells c' = p * cells c /\
  cells c' * total_proc c = cells c * total_proc c' /\
  (let m := match r with X_AXIS => (p, 1, 1) | _ => (1, 1, p) end in
   scaled_int m (grid_shape_xyz c) (grid_shape_xyz c') /\
   scaled_int m (nproc_grid_xyz c) (nproc_grid_xyz c')) /\
  same_workload c c'.
Proof.
  intros H. cbv zeta.
  destruct (iter_next_totals _ _ _ _ _ H) as [Ht Hc].
  split; [exact Ht|]. split; [exact Hc|]. split; [rewrite Ht, Hc; ring|].
  split; [exact (iter_next_pattern _ _ _ _ _ H)|].
  exact (iter_next_same_workload _ _ _ _ _ H).
Qed.

Lemma iter_next_closed_form_witness :
  iter_next LEFT X_AXIS 2 scenario_base = Ok scenario_nproc4 /\
  total_proc scenario_nproc4 = 2 ^ 2 * total_proc scenario_base /\
  cells scenario_nproc4 = 2 ^ 2 * cells scenario_base.
Proof.
  split; [reflexivity|].
  destruct (iter_next_closed_form LEFT X_AXIS 2 scenario_base scenario_nproc4
              eq_refl) as (Ht & Hc & _).
  split; [exact Ht | exact Hc].
Defined.

(** ** Further properties of [build_cases] *)


(** From the loop head the run does not depend on [base_case] nor on
    [include_base_case]. *)
Lemma run_loop_frame (b b' : ProblemCase) (o : OriginLoc) (r : ScaleRule)
  (max_proc min_proc : Z) (i i' : bool) (fuel : nat) :
  forall c,
    run b o r max_proc min_proc i fuel (At_loop c)
    = run b' o r max_proc min_proc i' fuel (At_loop c).
Proof.
  induction fuel as [|fuel IH]; intros c; [reflexivity|].
  destruct (_next_case c o r) as [c'|e] eqn:Hc.
  - rewrite !(run_loop _ _ _ _ _ _ _ _ _ Hc), (IH c'). reflexivity.
  - rewrite !(run_loop_raise _ _ _ _ _ _ _ _ _ Hc). reflexivity.
Qed.

Lemma run_fuel_stable (base : ProblemCase) (o : OriginLoc) (r : ScaleRule)
  (max_proc min_proc : Z) (incl : bool) (fuel : nat) :
  forall st extra,
    snd (run base o r max_proc min_proc incl fuel st) <> Out_of_fuel ->
    run base o r max_proc min_proc incl (fuel + extra) st
    = run base o r max_proc min_proc incl fuel st.
Proof.
  induction fuel as [|fuel IH]; intros st extra H; [exfalso; apply H; reflexivity|].
  cbn [Nat.add run] in *.
  destruct (gen_step base o r max_proc min_proc incl st) as [[y| | |e] st'];
    try reflexivity.
  - destruct (run base o r max_proc min_proc incl fuel st') as [ys out] eqn:E.
    rewrite (IH st' extra); rewrite E; [reflexivity | exact H].
  - apply IH. exact H.
Qed.

(** The fuel only bounds the number of steps: once a run has ended, by a
    return or by an exception, more fuel gives the same values and the same
    end. *)
Lemma build_cases_fuel_irrelevant (base : ProblemCase) (o : OriginLoc)
  (r : ScaleRule) (max_proc min_proc : Z) (incl : bool) (fuel fuel' : nat) :
  snd (build_cases base o r max_proc min_proc incl fuel) <> Out_of_fuel ->
  (fuel <= fuel')%nat ->
  build_cases base o r max_proc min_proc incl fuel'
  = build_cases base o r max_proc min_proc incl fuel.
Proof.
  intros H Hle. replace fuel' with (fuel + (fuel' - fuel))%nat by lia.
  apply run_fuel_stable. exact H.
Qed.

(** X5.  Without the base case the sequence is the one with the base case minus
    its first element, and the run ends in the same way. *)
Theorem build_cases_without_base (base : ProblemCase) (o : OriginLoc)
  (r : ScaleRule) (max_proc min_proc : Z) (fuel : nat) :
  preconditions base max_proc min_proc ->
  build_cases base o r max_proc min_proc true (S fuel)
  = (base :: fst (build_cases base o r max_proc min_proc false (S fuel)),
     snd (build_cases base o r max_proc min_proc false (S fuel))).
Proof.
  intros Hpre. unfold build_cases. rewrite !(run_entry _ _ _ _ _ _ _ Hpre).
  cbn [app fst snd].
  rewrite (run_loop_frame base base o r max_proc min_proc true false fuel base).
  reflexivity.
Qed.

Lemma build_cases_without_base_witness :
  preconditions scenario_base 4 1 /\
  build_cases scenario_base LEFT X_AXIS 4 1 true 4
  = (scenario_base :: fst (build_cases scenario_base LEFT X_AXIS 4 1 false 4),
     snd (build_cases scenario_base LEFT X_AXIS 4 1 false 4)).
Proof.
  assert (Hpre : preconditions scenario_base 4 1).
  { unfold preconditions. cbn. lia. }
  split; [exact Hpre|].
  exact (build_cases_without_base scenario_base LEFT X_AXIS 4 1 3 Hpre).
Defined.



(** X7.  The generator returns.  With the rule [X_AXIS] or [Z_AXIS], an origin
    that passes the test of [LEFT], a positive process grid and the three
    preconditions, [max_proc + 2] steps are enough for the run to end with
    a return: the number of processes doubles at every turn of the loop and
    at most [max_proc] turns stay within [max_proc]. *)
Theorem build_cases_terminates (base : ProblemCase) (o : OriginLoc)
  (r : ScaleRule) (max_proc min_proc : Z) (incl : bool) :
  preconditions base max_proc min_proc ->
  positive_triple (nproc_grid_xyz base) ->
  r <> XY_PLANE ->
  (o = LEFT -> all_zero (grid_left_xyz base)) ->
  snd (build_cases base o r max_proc min_proc incl (S (S (Z.to_nat max_proc))))
    = Returned.
Proof.
  intros Hpre Hpos Hr Hzero. apply positive_total in Hpos.
  unfold build_cases. rewrite (run_entry _ _ _ _ _ _ _ Hpre). cbn [snd].
  destruct Hpre as (Hmax & Hmin & Hbase).
  apply run_loop_returns; try assumption; lia.
Qed.

Lemma build_cases_terminates_witness :
  preconditions scenario_base 4 1 /\
  positive_triple (nproc_grid_xyz scenario_base) /\
  all_zero (grid_left_xyz scenario_base) /\
  snd (build_cases scenario_base LEFT X_AXIS 4 1 true (S (S (Z.to_nat 4))))
    = Returned.
Proof.
  assert (Hpre : preconditions scenario_base 4 1).
  { unfold preconditions. cbn. lia. }
  assert (Hpos : positive_triple (nproc_grid_xyz scenario_base)).
  { unfold positive_triple. cbn. lia. }
  assert (Hz : all_zero (grid_left_xyz scenario_base)).
  { unfold all_zero; cbn. repeat split; reflexivity. }
  split; [exact Hpre|]. split; [exact Hpos|]. split; [exact Hz|].
  apply (build_cases_terminates scenario_base LEFT X_AXIS 4 1 true Hpre Hpos).
  - discriminate.
  - intros _. exact Hz.
Defined.

(** A call that passes the two tests of [_next_case] returns, and under
    [LEFT] the next call passes the test on the origin again. *)
Lemma next_case_succeeds (c : ProblemCase) (o : OriginLoc) (r : ScaleRule) :
  r <> XY_PLANE ->
  (o = LEFT -> all_zero (grid_left_xyz c)) ->
  exists c', _next_case c o r = Ok c' /\
             (o = LEFT -> all_zero (grid_left_xyz c')).
Proof.
  intros Hr Hzero. destruct o.
  - destruct (proj2 (next_case_LEFT c r Hr) (Hzero eq_refl)) as (c' & Hc & Hl).
    exists c'. split; [exact Hc|]. intros _. rewrite Hl. auto.
  - unfold _next_case. destruct r; try congruence;
      cbn [select_transform bind]; eexists; (split; [reflexivity | discriminate]).
Qed.

Lemma next_case_failure (c : ProblemCase) (o : OriginLoc) (r : ScaleRule) :
  (r = XY_PLANE -> _next_case c o r = Raise (AttributeError "XY_AXIS")) /\
  (r <> XY_PLANE -> o = LEFT -> ~ all_zero (grid_left_xyz c) ->
   _next_case c o r = Raise (AssertionError Assert_grid_left_zero)).
Proof.
  split.
  - intros ->. reflexivity.
  - intros Hr -> Hz. exact (proj2 (proj1 (next_case_LEFT c r Hr)) Hz).
Qed.

(** X8.  When the first call of [_next_case] fails, on the rule [XY_PLANE] or on
    a nonzero origin under [LEFT], the generator yields the base case (when
    asked to) and then raises that exception: [AttributeError] for
    [XY_PLANE], the [AssertionError] of [_next_case] otherwise. *)
Theorem build_cases_first_call_fails (base : ProblemCase) (o : OriginLoc)
  (r : ScaleRule) (max_proc min_proc : Z) (incl : bool) :
  preconditions base max_proc min_proc ->
  (r = XY_PLANE \/ (o = LEFT /\ ~ all_zero (grid_left_xyz base))) ->
  let e := match r with
           | XY_PLANE => AttributeError "XY_AXIS"
           | _ => AssertionError Assert_grid_left_zero
           end in
  forall fuel,
    build_cases base o r max_proc min_proc incl (S (S fuel))
    = ((if incl then [base] else []), Failed e).
Proof.
  intros Hpre Hbad e fuel.
  assert (He : _next_case base o r = Raise e).
  { destruct (next_case_failure base o r) as [Hxy Hleft]. subst e.
    destruct r; try (apply Hxy; reflexivity);
      (destruct Hbad as [Hbad|[Ho Hz]]; [discriminate Hbad|];
       apply Hleft; [discriminate | exact Ho | exact Hz]). }
  unfold build_cases. rewrite (run_entry _ _ _ _ _ _ _ Hpre).
  rewrite (run_loop_raise _ _ _ _ _ _ _ _ _ He). cbn [fst snd].
  rewrite app_nil_r. reflexivity.
Qed.

Lemma build_cases_first_call_fails_witness :
  preconditions scenario_base 4 1 /\
  build_cases scenario_base LEFT XY_PLANE 4 1 true 2
  = ([scenario_base], Failed (AttributeError "XY_AXIS")).
Proof.
  assert (Hpre : preconditions scenario_base 4 1).
  { unfold preconditions. cbn. lia. }
  split; [exact Hpre|].
  exact (build_cases_first_call_fails scenario_base LEFT XY_PLANE 4 1 true
           Hpre (or_introl eq_refl) 0%nat).
Defined.

Lemma run_loop_never_returns (base : ProblemCase) (o : OriginLoc) (r : ScaleRule)
  (max_proc min_proc : Z) (incl : bool) (fuel : nat) :
  r <> XY_PLANE -> 1 <= max_proc ->
  forall c,
    (o = LEFT -> all_zero (grid_left_xyz c)) ->
    total_proc c <= 0 ->
    snd (run base o r max_proc min_proc incl fuel (At_loop c)) = Out_of_fuel /\
    (0 < min_proc ->
     fst (run base o r max_proc min_proc incl fuel (At_loop c)) = []).
Proof.
  intros Hr Hmax. induction fuel as [|fuel IH]; intros c Hzero Hneg.
  - split; reflexivity.
  - destruct (next_case_succeeds c o r Hr Hzero) as (c' & Hc & Hzero').
    pose proof (next_case_total _ _ _ _ Hc) as Htot.
    rewrite (run_loop _ _ _ _ _ _ _ _ _ Hc).
    destruct (IH c' Hzero') as [Hout Hnil]; [lia|].
    replace (total_proc c' >? max_proc) with false
      by (symmetry; rewrite Z.gtb_ltb; apply Z.ltb_ge; lia).
    destruct (total_proc c' <? min_proc) eqn:Hlow.
    + split; assumption.
    + cbn [fst snd]. split; [exact Hout|].
      intros Hmin. apply Z.ltb_ge in Hlow. lia.
Qed.

(** X9.  The asserts accept a base case whose [total_proc] is zero or negative
    (a zero or a negative number in [nproc_grid_xyz]).  With [X_AXIS] or
    [Z_AXIS] and an origin that passes the test of [LEFT], the loop then
    never ends: whatever the fuel, the run has neither returned nor raised,
    and with a positive [min_generated_proc] it yields nothing after the
    base case. *)
Theorem build_cases_never_returns (base : ProblemCase) (o : OriginLoc)
  (r : ScaleRule) (max_proc min_proc : Z) (incl : bool) (fuel : nat) :
  preconditions base max_proc min_proc ->
  r <> XY_PLANE ->
  (o = LEFT -> all_zero (grid_left_xyz base)) ->
  total_proc base <= 0 ->
  snd (build_cases base o r max_proc min_proc incl fuel) = Out_of_fuel /\
  (0 < min_proc ->
   fst (build_cases base o r max_proc min_proc incl (S fuel))
   = if incl then [base] else []).
Proof.
  intros Hpre Hr Hzero Hneg.
  assert (Hmax : 1 <= max_proc) by (destruct Hpre; assumption).
  split.
  - destruct fuel as [|fuel]; [reflexivity|].
    unfold build_cases. rewrite (run_entry _ _ _ _ _ _ _ Hpre). cbn [snd].
    apply run_loop_never_returns; assumption.
  - intros Hmin. unfold build_cases. rewrite (run_entry _ _ _ _ _ _ _ Hpre).
    cbn [fst].
    rewrite (proj2 (run_loop_never_returns base o r max_proc min_proc incl fuel
                      Hr Hmax base Hzero Hneg) Hmin).
    apply app_nil_r.
Qed.

Lemma build_cases_never_returns_witness :
  let stalled := {| grid_left_xyz := (0, 0, 0)%Q;
                    grid_width_xyz := (2, 2, 2)%Q;
                    grid_shape_xyz := (350, 350, 350);
                    nproc_grid_xyz := (0, 1, 1) |} in
  preconditions stalled 4 1 /\
  total_proc stalled <= 0 /\
  snd (build_cases stalled LEFT X_AXIS 4 1 true 1000) = Out_of_fuel.
Proof.
  intros stalled.
  assert (Hpre : preconditions stalled 4 1).
  { unfold preconditions. cbn. lia. }
  assert (Hneg : total_proc stalled <= 0) by (cbn; lia).
  assert (Hz : all_zero (grid_left_xyz stalled)).
  { unfold all_zero; cbn. repeat split; reflexivity. }
  split; [exact Hpre|]. split; [exact Hneg|].
  refine (proj1 (build_cases_never_returns stalled LEFT X_AXIS 4 1 true 1000
                   Hpre _ (fun _ => Hz) Hneg)).
  discriminate.
Defined.

Lemma chain_totals (o : OriginLoc) (r : ScaleRule) (j : nat) :
  forall c cj, iter_next o r j c = Ok cj ->
    List.length (chain o r j c) = j /\
    map total_proc (chain o r j c)
    = map (fun i => 2 ^ Z.of_nat i * total_proc c) (seq 1 j).
Proof.
  induction j as [|j IH]; intros c cj H; [split; reflexivity|].
  apply iter_S_Ok in H as (c' & Hc & Hj).
  destruct (IH _ _ Hj) as [Hlen Htot].
  rewrite (chain_S _ _ _ _ _ Hc). cbn [List.length map seq]. split.
  - rewrite Hlen. reflexivity.
  - rewrite Htot, (next_case_total _ _ _ _ Hc).
    change (2 ^ Z.of_nat 1) with 2. f_equal.
    rewrite <- (seq_shift j 1), map_map. apply map_ext. intros i.
    rewrite Nat2Z.inj_succ, Z.pow_succ_r by lia. ring.
Qed.

Lemma build_cases_doubling (base : ProblemCase) (o : OriginLoc)
  (r : ScaleRule) (max_proc min_proc : Z) (incl : bool) :
  preconditions base max_proc min_proc ->
  r <> XY_PLANE ->
  (o = LEFT -> all_zero (grid_left_xyz base)) ->
  0 < total_proc base ->
  min_proc <= total_proc base ->
  let k := Z.to_nat (Z.log2 (max_proc / total_proc base)) in
  forall fuel, (k + 1 < fuel)%nat ->
    build_cases base o r max_proc min_proc incl fuel
    = ((if incl then [base] else []) ++ chain o r k base, Returned) /\
    List.length (chain o r k base) = k /\
    map total_proc (chain o r k base)
    = map (fun i => 2 ^ Z.of_nat i * total_proc base) (seq 1 k).
Proof.
  intros Hpre Hr Hzero Hpos Hmin k fuel Hfuel.
  destruct (first_above_max_proc_exists o r max_proc
              (S (Z.to_nat (max_proc - total_proc base))) Hr base Hzero Hpos)
    as (k' & ck & Hfirst); [lia|].
  pose proof Hfirst as (Hk' & Hck & Hgt & Hbefore).
  destruct k' as [|j]; [lia|].
  destruct (iter_snoc _ _ _ _ _ Hck) as (cj & Hcj & Hnext).
  destruct (iter_next_totals _ _ _ _ _ Hck) as [Htck _].
  destruct (iter_next_totals _ _ _ _ _ Hcj) as [Htcj _].
  assert (Hle : total_proc cj <= max_proc).
  { destruct j as [|j].
    - inversion Hcj; subst. destruct Hpre as (_ & _ & H). exact H.
    - apply (Hbefore (S j)); [lia | exact Hcj]. }
  assert (Hk : k = j).
  { subst k. set (t := total_proc base) in *.
    assert (Hlog : Z.log2 (max_proc / t) = Z.of_nat j).
    { apply Z.log2_unique; [lia|]. split.
      - apply Z.div_le_lower_bound; [exact Hpos|]. rewrite Z.mul_comm. lia.
      - apply Z.div_lt_upper_bound; [exact Hpos|].
        rewrite <- Nat2Z.inj_succ, Z.mul_comm. lia. }
    rewrite Hlog. apply Nat2Z.id. }
  rewrite Hk.
  destruct (chain_totals _ _ _ _ _ Hcj) as [Hlen Htot].
  split; [|split; assumption].
  rewrite (build_cases_until_first_above base o r max_proc min_proc incl
             (S j) ck fuel Hpre Hfirst) by lia.
  replace (S j - 1)%nat with j by lia.
  f_equal. f_equal.
  apply forallb_filter_id. apply forallb_forall. intros x Hx.
  apply in_chain in Hx as (i & Hi & Hxi).
  destruct (iter_next_totals _ _ _ _ _ Hxi) as [Hx _].
  unfold above_floor. apply Z.leb_le. rewrite Hx.
  assert (0 < 2 ^ Z.of_nat i) by (apply Z.pow_pos_nonneg; lia). nia.
Qed.

(** X10.  With the rule [X_AXIS] or [Z_AXIS], an origin that passes the test of
    [LEFT], a positive [total_proc] of the base case and a floor at or
    below it, nothing is skipped and the run returns: it yields the base
    case (when asked to) and then its successive doubles as long as they
    fit under [max_proc]; there are [log2 (max_proc / total_proc base)] of
    them, the [i]-th with [2^i] times the processes of the base case. *)
Theorem build_cases_doubling_sequence (base : ProblemCase) (o : OriginLoc)
  (r : ScaleRule) (max_proc min_proc : Z) (incl : bool) :
  preconditions base max_proc min_proc ->
  r <> XY_PLANE ->
  (o = LEFT -> all_zero (grid_left_xyz base)) ->
  0 < total_proc base ->
  min_proc <= total_proc base ->
  let k := Z.to_nat (Z.log2 (max_proc / total_proc base)) in
  forall fuel, (k + 1 < fuel)%nat ->
    build_cases base o r max_proc min_proc incl fuel
    = ((if incl then [base] else []) ++ chain o r k base, Returned) /\
    List.length (chain o r k base) = k /\
    map total_proc (chain o r k base)
    = map (fun i => 2 ^ Z.of_nat i * total_proc base) (seq 1 k).
Proof. exact (build_cases_doubling base o r max_proc min_proc incl). Qed.

Lemma build_cases_doubling_sequence_witness :
  preconditions scenario_base 4 1 /\
  all_zero (grid_left_xyz scenario_base) /\
  build_cases scenario_base LEFT X_AXIS 4 1 true 4
  = ([scenario_base] ++ chain LEFT X_AXIS (Z.to_nat (Z.log2 (4 / 1))) scenario_base,
     Returned) /\
  map total_proc (chain LEFT X_AXIS (Z.to_nat (Z.log2 (4 / 1))) scenario_base)
  = [2; 4].
Proof.
  assert (Hpre : preconditions scenario_base 4 1).
  { unfold preconditions. cbn. lia. }
  assert (Hz : all_zero (grid_left_xyz scenario_base)).
  { unfold all_zero; cbn. repeat split; reflexivity. }
  split; [exact Hpre|]. split; [exact Hz|].
  assert (Hr : X_AXIS <> XY_PLANE) by discriminate.
  assert (Hpos : 0 < total_proc scenario_base) by (cbn; lia).
  assert (Hmin : 1 <= total_proc scenario_base) by (cbn; lia).
  assert (Hfuel : (Z.to_nat (Z.log2 (4 / total_proc scenario_base)) + 1 < 4)%nat)
    by (cbn; lia).
  destruct (build_cases_doubling_sequence scenario_base LEFT X_AXIS 4 1 true
              Hpre Hr (fun _ => Hz) Hpos Hmin 4%nat Hfuel) as (Hrun & _ & Htot).
  split; [exact Hrun | exact Htot].
Defined.

(** ** The registry *)

Lemma dict_get_set_same {V : Type} (d : dict V) (k : string) (v : V) :
  dict_get (dict_set d k v) k = Some v.
Proof.
  induction d as [|[k' v'] d IH]; cbn [dict_set dict_get].
  - rewrite String.eqb_refl. reflexivity.
  - destruct (String.eqb k' k) eqn:E; cbn [dict_get]; rewrite E;
      [reflexivity | exact IH].
Qed.

Lemma dict_get_set_other {V : Type} (d : dict V) (k k' : string) (v : V) :
  k <> k' -> dict_get (dict_set d k v) k' = dict_get d k'.
Proof.
  intros Hne. induction d as [|[k0 v0] d IH]; cbn [dict_set dict_get].
  - replace (String.eqb k k') with false
      by (symmetry; apply String.eqb_neq; exact Hne). reflexivity.
  - destruct (String.eqb k0 k) eqn:E; cbn [dict_get].
    + apply String.eqb_eq in E. subst k0.
      replace (String.eqb k k') with false
        by (symmetry; apply String.eqb_neq; exact Hne). reflexivity.
    + rewrite IH. reflexivity.
Qed.

Lemma dict_keys_set {V : Type} (d : dict V) (k : string) (v : V) (k' : string) :
  In k' (dict_keys (dict_set d k v)) <-> k' = k \/ In k' (dict_keys d).
Proof.
  unfold dict_keys. induction d as [|[k0 v0] d IH]; cbn [dict_set map fst In].
  - intuition congruence.
  - destruct (String.eqb k0 k) eqn:E; cbn [map fst In].
    + apply String.eqb_eq in E. subst k0. intuition congruence.
    + rewrite IH. intuition congruence.
Qed.

Lemma dict_keys_set_NoDup {V : Type} (d : dict V) (k : string) (v : V) :
  NoDup (dict_keys d) -> NoDup (dict_keys (dict_set d k v)).
Proof.
  unfold dict_keys. induction d as [|[k0 v0] d IH]; cbn [dict_set map fst];
    intros H.
  - constructor; [intros [] | constructor].
  - destruct (String.eqb k0 k) eqn:E; cbn [map fst]; [exact H|].
    inversion H as [|? ? Hnin Hnd]; subst. constructor; [|exact (IH Hnd)].
    intros Hin. apply (dict_keys_set d k v k0) in Hin as [->|Hin].
    + rewrite String.eqb_refl in E. discriminate E.
    + exact (Hnin Hin).
Qed.

Lemma build_problem_props_snoc (props : list ProblemProps.t) (p : ProblemProps.t) :
  _build_problem_props (props ++ [p])
  = dict_set (_build_problem_props props) (ProblemProps.name p) p.
Proof. unfold _build_problem_props. rewrite fold_left_app. reflexivity. Qed.

(** X11.  The registry built from [props] has one key per name, and a name maps
    to the last of the [props] that carries it; a name that no [prop]
    carries is not a key ([KeyError] on lookup). *)
Theorem build_problem_props_lookup (props : list ProblemProps.t) (k : string) :
  dict_get (_build_problem_props props) k
  = find (fun p => String.eqb (ProblemProps.name p) k) (rev props) /\
  NoDup (dict_keys (_build_problem_props props)) /\
  (In k (dict_keys (_build_problem_props props)) <->
   exists p, In p props /\ ProblemProps.name p = k) /\
  (forall p, dict_get (_build_problem_props props) k = Some p ->
             In p props /\ ProblemProps.name p = k).
Proof.
  assert (Hget : dict_get (_build_problem_props props) k
                 = find (fun p => String.eqb (ProblemProps.name p) k) (rev props)).
  { induction props as [|p props IH] using rev_ind; [reflexivity|].
    rewrite build_problem_props_snoc, rev_app_distr. cbn [rev app find].
    destruct (String.eqb (ProblemProps.name p) k) eqn:E.
    - apply String.eqb_eq in E. subst k. apply dict_get_set_same.
    - apply String.eqb_neq in E. rewrite dict_get_set_other by exact E.
      exact IH. }
  split; [exact Hget|]. split; [|split].
  - clear Hget. induction props as [|p props IH] using rev_ind; [constructor|].
    rewrite build_problem_props_snoc. apply dict_keys_set_NoDup. exact IH.
  - clear Hget. induction props as [|p props IH] using rev_ind.
    + cbn. split; [intros [] | intros (p & [] & _)].
    + rewrite build_problem_props_snoc, dict_keys_set, IH. split.
      * intros [->|(q & Hq & Hk)].
        -- exists p. split; [apply in_or_app; right; left|]; reflexivity.
        -- exists q. split; [apply in_or_app; left; exact Hq | exact Hk].
      * intros (q & Hq & Hk). apply in_app_or in Hq as [Hq|[<-|[]]].
        -- right. exists q. auto.
        -- left. symmetry. exact Hk.
  - intros p Hp. rewrite Hget in Hp. apply find_some in Hp as [Hin Hname].
    split; [apply in_rev; exact Hin | apply String.eqb_eq; exact Hname].
Qed.

Lemma ProblemRegistry_items :
  ProblemRegistry
  = [ ("sound"%string, ProblemProps.mk "sound" LEFT X_AXIS);
      ("slow_magnetosonic"%string, ProblemProps.mk "slow_magnetosonic" LEFT X_AXIS);
      ("adiabatic_disk"%string, ProblemProps.mk "adiabatic_disk" CENTER Z_AXIS) ].
Proof. reflexivity. Qed.

(** X12.  For every problem of the registry and every positive [max_nproc], the
    list of cases that [cli_main] builds is complete and not empty: the
    generator returns without an exception (no registered problem uses
    [XY_PLANE], and the base case of a [LEFT] problem has a zero origin),
    and the list is the base case followed by [log2 max_nproc] derived
    cases, whose numbers of processes are the powers of two up to
    [max_nproc]. *)
Theorem case_l_of_registered_problem (name : string) (p : ProblemProps.t)
  (max_nproc : Z) :
  dict_get ProblemRegistry name = Some p ->
  0 < max_nproc ->
  let k := Z.to_nat (Z.log2 max_nproc) in
  forall fuel, (k + 1 < fuel)%nat ->
    snd (case_l p max_nproc fuel) = Returned /\
    fst (case_l p max_nproc fuel)
    = base_problem_case p
        :: chain (ProblemProps.origin_loc p) (ProblemProps.scale_rule p) k
             (base_problem_case p) /\
    List.length (fst (case_l p max_nproc fuel)) = S k /\
    map total_proc (fst (case_l p max_nproc fuel))
    = map (fun i => 2 ^ Z.of_nat i) (seq 0 (S k)) /\
    Forall (fun c => total_proc c <= max_nproc) (fst (case_l p max_nproc fuel)).
Proof.
  intros Hp Hmax k fuel Hfuel.
  assert (Hcases : p = ProblemProps.mk "sound" LEFT X_AXIS \/
                   p = ProblemProps.mk "slow_magnetosonic" LEFT X_AXIS \/
                   p = ProblemProps.mk "adiabatic_disk" CENTER Z_AXIS).
  { rewrite ProblemRegistry_items in Hp. cbn [dict_get] in Hp.
    repeat match type of Hp with
           | (if ?b then _ else _) = _ => destruct b
           end; inversion Hp; auto. }
  assert (Hone : total_proc (base_problem_case p) = 1)
    by (destruct Hcases as [->|[->| ->]]; reflexivity).
  assert (Hpre : preconditions (base_problem_case p) max_nproc 1).
  { unfold preconditions. rewrite Hone. lia. }
  assert (Hr : ProblemProps.scale_rule p <> XY_PLANE)
    by (destruct Hcases as [->|[->| ->]]; discriminate).
  assert (Hz : ProblemProps.origin_loc p = LEFT ->
               all_zero (grid_left_xyz (base_problem_case p))).
  { destruct Hcases as [->|[->| ->]]; cbn; try discriminate;
      intros _; unfold all_zero; cbn; repeat split; reflexivity. }
  destruct (build_cases_doubling (base_problem_case p)
              (ProblemProps.origin_loc p) (ProblemProps.scale_rule p)
              max_nproc 1 true Hpre Hr Hz) with (fuel := fuel)
    as (Hrun & Hlen & Htot);
    try (rewrite Hone; lia).
  { rewrite Hone, Z.div_1_r. exact Hfuel. }
  rewrite Hone, Z.div_1_r in Hrun, Hlen, Htot. fold k in Hrun, Hlen, Htot.
  unfold case_l. rewrite Hrun. cbn [fst snd app].
  split; [reflexivity|]. split; [reflexivity|]. split; [cbn; rewrite Hlen; reflexivity|].
  assert (Hmap : map total_proc
                   (base_problem_case p
                      :: chain (ProblemProps.origin_loc p)
                           (ProblemProps.scale_rule p) k (base_problem_case p))
                 = map (fun i => 2 ^ Z.of_nat i) (seq 0 (S k))).
  { cbn [map seq]. rewrite Hone, Htot. f_equal.
    apply map_ext. intros i. ring. }
  split; [exact Hmap|].
  apply Forall_forall. intros c Hc.
  apply (in_map total_proc) in Hc. rewrite Hmap in Hc.
  apply in_map_iff in Hc as (i & <- & Hi). apply in_seq in Hi.
  assert (Hlog : 2 ^ Z.log2 max_nproc <= max_nproc)
    by (apply Z.log2_spec; exact Hmax).
  assert (Hk : Z.of_nat k = Z.log2 max_nproc)
    by (subst k; apply Z2Nat.id, Z.log2_nonneg).
  rewrite <- Hk in Hlog.
  assert (2 ^ Z.of_nat i <= 2 ^ Z.of_nat k)
    by (apply Z.pow_le_mono_r; lia).
  lia.
Qed.

Lemma case_l_of_registered_problem_witness :
  dict_get ProblemRegistry "adiabatic_disk" =
    Some (ProblemProps.mk "adiabatic_disk" CENTER Z_AXIS) /\
  snd (case_l (ProblemProps.mk "adiabatic_disk" CENTER Z_AXIS) 6 4) = Returned /\
  map total_proc
    (fst (case_l (ProblemProps.mk "adiabatic_disk" CENTER Z_AXIS) 6 4))
  = [1; 2; 4].
Proof.
  split; [reflexivity|].
  assert (Hmax : 0 < 6) by lia.
  assert (Hfuel : (Z.to_nat (Z.log2 6) + 1 < 4)%nat) by (cbn; lia).
  destruct (case_l_of_registered_problem "adiabatic_disk"
              (ProblemProps.mk "adiabatic_disk" CENTER Z_AXIS) 6 eq_refl Hmax
              4%nat Hfuel) as (Hout & _ & _ & Htot & _).
  split; [exact Hout | exact Htot].
Defined.

Lemma build_problem_props_lookup_witness :
  dict_get (_build_problem_props
              [ ProblemProps.mk "sound" LEFT X_AXIS;
                ProblemProps.mk "disk" CENTER Z_AXIS;
                ProblemProps.mk "sound" CENTER Z_AXIS ]) "sound"
  = Some (ProblemProps.mk "sound" CENTER Z_AXIS) /\
  dict_get (_build_problem_props
              [ ProblemProps.mk "sound" LEFT X_AXIS;
                ProblemProps.mk "disk" CENTER Z_AXIS;
                ProblemProps.mk "sound" CENTER Z_AXIS ]) "shock"
  = None.
Proof.
  split.
  - exact (proj1 (build_problem_props_lookup
                    [ ProblemProps.mk "sound" LEFT X_AXIS;
                      ProblemProps.mk "disk" CENTER Z_AXIS;
                      ProblemProps.mk "sound" CENTER Z_AXIS ] "sound")).
  - exact (proj1 (build_problem_props_lookup
                    [ ProblemProps.mk "sound" LEFT X_AXIS;
                      ProblemProps.mk "disk" CENTER Z_AXIS;
                      ProblemProps.mk "sound" CENTER Z_AXIS ] "shock")).
Defined.

(** ** Strings *)

Lemma string_length_append (s t : string) :
  String.length (s ++ t) = (String.length s + String.length t)%nat.
Proof. induction s as [|a s IH]; cbn; [reflexivity | rewrite IH; reflexivity]. Qed.

Lemma string_append_inj_l (s a b : string) :
  (s ++ a = s ++ b)%string -> a = b.
Proof.
  induction s as [|c s IH]; cbn; intros H; [exact H|].
  inversion H. auto.
Qed.

Lemma string_append_inj_r (t : string) :
  forall a b, (a ++ t = b ++ t)%string -> a = b.
Proof.
  induction a as [|c a IH]; intros [|d b] H; cbn in H.
  - reflexivity.
  - apply (f_equal String.length) in H. cbn in H.
    rewrite string_length_append in H. lia.
  - apply (f_equal String.length) in H. cbn in H.
    rewrite string_length_append in H. lia.
  - inversion H; subst. f_equal. auto.
Qed.

Lemma prefix_drop (p : string) :
  forall s, String.prefix p s = true ->
            (p ++ string_drop (String.length p) s)%string = s.
Proof.
  induction p as [|a p IH]; intros s H; [reflexivity|].
  destruct s as [|b s]; cbn [String.prefix] in H; [discriminate H|].
  destruct (ascii_dec a b) as [->|Hne]; [|discriminate H].
  cbn [String.length string_drop String.append]. rewrite (IH s H). reflexivity.
Qed.

Lemma str_int_inj (a b : Z) : str_int a = str_int b -> a = b.
Proof.
  unfold str_int. intros H. apply DecimalZ.to_int_inj.
  pose proof (DecimalString.NilEmpty.isi (Z.to_int a)) as Ha.
  rewrite H, DecimalString.NilEmpty.isi in Ha. congruence.
Qed.

(** ** [_compile_cholla] *)

(** X13.  [_compile_cholla] raises before running anything exactly when
    [make_jobs] is an integer that is zero or negative ([ValueError]), or is
    neither a [bool] nor an [int] ([TypeError]).  Otherwise it runs
    [make clean] and then one [make] command that ends with [TYPE=] and
    [MACHINE=]; that command carries [-j] exactly when [make_jobs] is [True]
    or a positive integer, and the integer printed after [-j] reads back as
    [make_jobs]. *)
Theorem compile_cholla_commands (hostname maketype : string)
  (make_jobs : make_jobs_value) :
  (_compile_cholla hostname maketype make_jobs = Raises ValueError_make_jobs
   <-> exists n, make_jobs = Jobs_int n /\ n <= 0) /\
  (_compile_cholla hostname maketype make_jobs = Raises TypeError_make_jobs
   <-> make_jobs = Jobs_other) /\
  (forall commands,
     _compile_cholla hostname maketype make_jobs = Returns commands ->
     exists jobs,
       commands
       = [ ["make"%string; "clean"%string];
           ["make"%string] ++ jobs
             ++ [("TYPE=" ++ maketype)%string; ("MACHINE=" ++ hostname)%string] ] /\
       (make_jobs = Jobs_bool false -> jobs = []) /\
       (make_jobs = Jobs_bool true -> jobs = ["-j"%string]) /\
       (forall n, make_jobs = Jobs_int n ->
          0 < n /\
          exists count, jobs = ["-j"%string; count] /\
            option_map Z.of_int (DecimalString.NilEmpty.int_of_string count)
            = Some n)).
Proof.
  unfold _compile_cholla.
  destruct make_jobs as [[|]|n|]; cbv zeta.
  - split; [split; [discriminate | intros (n & H & _); discriminate H]|].
    split; [split; discriminate|].
    intros commands H. inversion H; subst. exists ["-j"%string].
    split; [reflexivity|]. split; [discriminate|]. split; [reflexivity|].
    intros n Hn. discriminate Hn.
  - split; [split; [discriminate | intros (n & H & _); discriminate H]|].
    split; [split; discriminate|].
    intros commands H. inversion H; subst. exists [].
    split; [reflexivity|]. split; [reflexivity|]. split; [discriminate|].
    intros n Hn. discriminate Hn.
  - destruct (n <=? 0) eqn:Hn.
    + apply Z.leb_le in Hn.
      split; [split; [intros _; exists n; auto | reflexivity]|].
      split; [split; discriminate|].
      intros commands H. discriminate H.
    + apply Z.leb_gt in Hn.
      split; [split; [discriminate | intros (m & H & Hm); inversion H; lia]|].
      split; [split; discriminate|].
      intros commands H. inversion H; subst. exists ["-j"%string; str_int n].
      split; [reflexivity|]. split; [discriminate|]. split; [discriminate|].
      intros m Hm. inversion Hm; subst m. split; [exact Hn|].
      exists (str_int n). split; [reflexivity|].
      unfold str_int. rewrite DecimalString.NilEmpty.isi. cbn [option_map].
      rewrite DecimalZ.of_to. reflexivity.
  - split; [split; [discriminate | intros (n & H & _); discriminate H]|].
    split; [split; reflexivity|].
    intros commands H. discriminate H.
Qed.

Lemma compile_cholla_commands_witness :
  _compile_cholla "frontier" "hydro" (Jobs_int 8)
  = Returns [ ["make"; "clean"];
              ["make"; "-j"; "8"; "TYPE=hydro"; "MACHINE=frontier"] ]%string /\
  _compile_cholla "frontier" "hydro" (Jobs_int 0) = Raises ValueError_make_jobs.
Proof.
  split.
  - destruct (proj2 (proj2 (compile_cholla_commands "frontier" "hydro" (Jobs_int 8)))
                _ eq_refl) as (jobs & _ & _).
    reflexivity.
  - apply (proj1 (compile_cholla_commands "frontier" "hydro" (Jobs_int 0))).
    exists 0. split; [reflexivity | lia].
Defined.

(** ** The input files and the build variant *)

(** The result of [maketype_and_param_paths] read off the entries that are
    files. *)
Lemma maketype_and_param_paths_by_files (it : list DirEntry.t) :
  maketype_and_param_paths it
  = match filter DirEntry.is_file it with
    | [a; b] =>
        match has_prefix a, has_prefix b with
        | true, false => Ok (DirEntry.path a, DirEntry.path b)
        | false, true => Ok (DirEntry.path b, DirEntry.path a)
        | false, false => Raise (RuntimeError No_maketype_file)
        | true, true => Raise (RuntimeError All_maketype_files)
        end
    | _ => Raise (RuntimeError Expect_exactly_2_files)
    end.
Proof.
  unfold maketype_and_param_paths, has_prefix. cbv zeta.
  destruct (filter DirEntry.is_file it) as [|a [|b [|c rest]]]; cbn.
  - reflexivity.
  - destruct (startswith (DirEntry.name a) _MAKETYPE_PREFIX); reflexivity.
  - destruct (startswith (DirEntry.name a) _MAKETYPE_PREFIX),
             (startswith (DirEntry.name b) _MAKETYPE_PREFIX); reflexivity.
  - destruct (startswith (DirEntry.name a) _MAKETYPE_PREFIX),
             (startswith (DirEntry.name b) _MAKETYPE_PREFIX); reflexivity.
Qed.

Lemma filter_permutation {A : Type} (f : A -> bool) (l l' : list A) :
  Permutation l l' -> Permutation (filter f l) (filter f l').
Proof.
  induction 1 as [|x l l' _ IH|x y l|l l' l'' _ IH1 _ IH2]; cbn [filter].
  - constructor.
  - destruct (f x); [constructor|]; exact IH.
  - destruct (f x), (f y); try apply Permutation_refl. constructor.
  - exact (Permutation_trans IH1 IH2).
Qed.

(** X14.  [os.scandir] lists a directory in no particular order; the result of
    [maketype_and_param_paths], paths or exception, does not depend on that
    order. *)
Theorem maketype_and_param_paths_order (it it' : list DirEntry.t) :
  Permutation it it' ->
  maketype_and_param_paths it = maketype_and_param_paths it'.
Proof.
  intros H. rewrite !maketype_and_param_paths_by_files.
  apply (filter_permutation DirEntry.is_file) in H.
  pose proof (Permutation_length H) as Hlen.
  destruct (filter DirEntry.is_file it) as [|a [|b [|c rest]]];
    destruct (filter DirEntry.is_file it') as [|a' [|b' [|c' rest']]];
    try discriminate Hlen; try reflexivity.
  apply Permutation_length_2_inv in H as [H|H]; inversion H; subst.
  - reflexivity.
  - destruct (has_prefix a), (has_prefix b); reflexivity.
Qed.

Lemma maketype_and_param_paths_order_witness :
  Permutation
    [ DirEntry.mk "sound.txt" "sound/sound.txt" true;
      DirEntry.mk "make.type.hydro" "sound/make.type.hydro" true ]
    [ DirEntry.mk "make.type.hydro" "sound/make.type.hydro" true;
      DirEntry.mk "sound.txt" "sound/sound.txt" true ] /\
  maketype_and_param_paths
    [ DirEntry.mk "sound.txt" "sound/sound.txt" true;
      DirEntry.mk "make.type.hydro" "sound/make.type.hydro" true ]
  = maketype_and_param_paths
      [ DirEntry.mk "make.type.hydro" "sound/make.type.hydro" true;
        DirEntry.mk "sound.txt" "sound/sound.txt" true ].
Proof.
  assert (H : Permutation
    [ DirEntry.mk "sound.txt" "sound/sound.txt" true;
      DirEntry.mk "make.type.hydro" "sound/make.type.hydro" true ]
    [ DirEntry.mk "make.type.hydro" "sound/make.type.hydro" true;
      DirEntry.mk "sound.txt" "sound/sound.txt" true ]) by apply perm_swap.
  split; [exact H|]. exact (maketype_and_param_paths_order _ _ H).
Defined.

(** X15.  The build variant matches the linked descriptor.  When the name of a
    directory entry is the base name of its path, the [maketype] that
    [_setup_cholla_for_problem] derives from the first path returned by
    [maketype_and_param_paths] is the name of that file without its
    ["make.type."] prefix: the [TYPE=] argument of [make] and the file
    linked under [builds] name the same variant, and the second path is
    not a descriptor. *)
Theorem setup_maketype_matches_descriptor (basename : string -> string)
  (it : list DirEntry.t) (src par hostname : string)
  (make_jobs : make_jobs_value) :
  (forall e, In e it -> basename (DirEntry.path e) = DirEntry.name e) ->
  maketype_and_param_paths it = Ok (src, par) ->
  (_MAKETYPE_PREFIX ++ maketype_of basename src)%string = basename src /\
  startswith (basename par) _MAKETYPE_PREFIX = false /\
  (exists e, In e it /\ DirEntry.is_file e = true /\
             DirEntry.path e = src /\ DirEntry.name e = basename src) /\
  (forall commands,
     setup_commands basename src hostname make_jobs = Returns commands ->
     exists jobs,
       commands
       = [ ["make"%string; "clean"%string];
           ["make"%string] ++ jobs
             ++ [("TYPE=" ++ maketype_of basename src)%string;
                 ("MACHINE=" ++ hostname)%string] ]).
Proof.
  intros Hbase H. rewrite maketype_and_param_paths_by_files in H.
  assert (Hfiles : exists fm fp,
             In fm (filter DirEntry.is_file it) /\
             In fp (filter DirEntry.is_file it) /\
             has_prefix fm = true /\ has_prefix fp = false /\
             src = DirEntry.path fm /\ par = DirEntry.path fp).
  { destruct (filter DirEntry.is_file it) as [|a [|b [|c rest]]];
      try discriminate H.
    destruct (has_prefix a) eqn:Ha, (has_prefix b) eqn:Hb;
      try discriminate H; inversion H; subst.
    - exists a, b. cbn. auto 10.
    - exists b, a. cbn. auto 10. }
  destruct Hfiles as (fm & fp & Hm & Hp & Hpm & Hpp & -> & ->).
  apply filter_In in Hm as [Hm Hmfile]. apply filter_In in Hp as [Hp _].
  unfold maketype_of. rewrite (Hbase fm Hm), (Hbase fp Hp).
  split; [apply prefix_drop; exact Hpm|]. split; [exact Hpp|]. split.
  - exists fm. auto.
  - intros commands Hc. unfold setup_commands, maketype_of in Hc.
    rewrite (Hbase fm Hm) in Hc. unfold _compile_cholla in Hc.
    destruct make_jobs as [[|]|n|]; cbv zeta in Hc;
      try destruct (n <=? 0); inversion Hc; subst.
    + exists ["-j"%string]. reflexivity.
    + exists []. reflexivity.
    + exists ["-j"%string; str_int n]. reflexivity.
Qed.

Lemma setup_maketype_matches_descriptor_witness :
  let it := [ DirEntry.mk "sound.txt" "sound/sound.txt" true;
              DirEntry.mk "make.type.hydro" "sound/make.type.hydro" true ] in
  let basename := string_drop 6 in
  maketype_and_param_paths it
    = Ok ("sound/make.type.hydro", "sound/sound.txt")%string /\
  maketype_of basename "sound/make.type.hydro" = "hydro"%string /\
  ("make.type." ++ "hydro")%string = basename "sound/make.type.hydro"%string.
Proof.
  intros it basename.
  split; [reflexivity|]. split; [reflexivity|].
  refine (proj1 (setup_maketype_matches_descriptor basename it
                   "sound/make.type.hydro" "sound/sound.txt" "frontier"
                   (Jobs_bool false) _ eq_refl)).
  intros e [<-|[<-|[]]]; reflexivity.
Defined.

(** ** The run script *)

Lemma build_cases_totals_increasing (base : ProblemCase) (o : OriginLoc)
  (r : ScaleRule) (max_proc min_proc : Z) (incl : bool) (fuel : nat) :
  preconditions base max_proc min_proc ->
  0 < total_proc base ->
  StronglySorted Z.lt
    (map total_proc (fst (build_cases base o r max_proc min_proc incl fuel))).
Proof.
  intros Hpre Hpos. destruct fuel as [|fuel]; [constructor|].
  unfold build_cases. rewrite (run_entry _ _ _ _ _ _ _ Hpre). cbn [fst].
  destruct (run_loop_increasing base o r max_proc min_proc incl fuel base Hpos)
    as [Hall Hsorted].
  destruct incl; cbn [app map]; [|exact Hsorted].
  constructor; [exact Hsorted|].
  apply Forall_map. eapply Forall_impl; [|exact Hall].
  cbv beta. intros y Hy. lia.
Qed.

Lemma strongly_sorted_NoDup (l : list Z) : StronglySorted Z.lt l -> NoDup l.
Proof.
  induction 1 as [|a l _ IH Hall]; constructor; [|exact IH].
  intros Hin. rewrite Forall_forall in Hall. specialize (Hall a Hin). lia.
Qed.

Lemma NoDup_map_through {A B C : Type} (f : A -> B) (g : A -> C) (l : list A) :
  (forall x y, f x = f y -> g x = g y) ->
  NoDup (map g l) -> NoDup (map f l).
Proof.
  intros Hfg. induction l as [|a l IH]; cbn [map]; intros H; [constructor|].
  inversion H as [|? ? Hnin Hnd]; subst. constructor; [|exact (IH Hnd)].
  intros Hin. apply Hnin. apply in_map_iff in Hin as (x & Hx & Hxl).
  apply in_map_iff. exists x. split; [|exact Hxl]. apply Hfg. exact Hx.
Qed.

Lemma log_name_inj (name : string) (c1 c2 : ProblemCase) :
  log_name name c1 = log_name name c2 -> total_proc c1 = total_proc c2.
Proof.
  unfold log_name. intros H.
  apply string_append_inj_l, string_append_inj_l, string_append_inj_r in H.
  exact (str_int_inj _ _ H).
Qed.

(** X16.  Each command of the run script redirects to the log file named after
    the problem and the number of processes of its case, and over the cases
    that [build_cases] yields from a base case with a positive process grid
    these names are pairwise different: no two runs of a script write to
    the same log. *)
Theorem run_script_logs_distinct (str_float : Q -> string)
  (name chollabin parfile : string) (base : ProblemCase) (o : OriginLoc)
  (r : ScaleRule) (max_proc min_proc : Z) (incl : bool) (fuel : nat) :
  preconditions base max_proc min_proc ->
  positive_triple (nproc_grid_xyz base) ->
  let problem_cases := fst (build_cases base o r max_proc min_proc incl fuel) in
  (forall c, last (shell_cmd str_float name chollabin parfile c) ""%string
             = (name ++ "_N" ++ str_int (total_proc c) ++ ".log")%string) /\
  NoDup (map (fun c => last (shell_cmd str_float name chollabin parfile c)
                            ""%string)
             problem_cases).
Proof.
  intros Hpre Hpos problem_cases.
  assert (Hlast : forall c,
             last (shell_cmd str_float name chollabin parfile c) ""%string
             = log_name name c).
  { intros c. unfold shell_cmd. rewrite !app_assoc. apply last_last. }
  split; [exact Hlast|].
  apply (NoDup_map_through _ total_proc).
  - intros x y. rewrite !Hlast. apply log_name_inj.
  - apply strongly_sorted_NoDup.
    apply build_cases_totals_increasing; [exact Hpre|].
    apply positive_total. exact Hpos.
Qed.

Lemma run_script_logs_distinct_witness :
  preconditions scenario_base 4 1 /\
  positive_triple (nproc_grid_xyz scenario_base) /\
  map (fun c => last (shell_cmd (fun _ => "0.0"%string) "sound" "cholla.hydro.frontier"
                        "sound.txt" c) ""%string)
      (fst (build_cases scenario_base LEFT X_AXIS 4 1 true 4))
  = ["sound_N1.log"; "sound_N2.log"; "sound_N4.log"]%string /\
  NoDup (map (fun c => last (shell_cmd (fun _ => "0.0"%string) "sound"
                               "cholla.hydro.frontier" "sound.txt" c) ""%string)
             (fst (build_cases scenario_base LEFT X_AXIS 4 1 true 4))).
Proof.
  assert (Hpre : preconditions scenario_base 4 1).
  { unfold preconditions. cbn. lia. }
  assert (Hpos : positive_triple (nproc_grid_xyz scenario_base)).
  { unfold positive_triple. cbn. lia. }
  split; [exact Hpre|]. split; [exact Hpos|]. split; [reflexivity|].
  exact (proj2 (run_script_logs_distinct (fun _ => "0.0"%string) "sound"
                  "cholla.hydro.frontier" "sound.txt" scenario_base LEFT X_AXIS
                  4 1 true 4 Hpre Hpos)).
Defined.

(** * Properties of [pretty_subprocess.py] *)

Lemma firstn_plus {A : Type} (n m : nat) :
  forall l : list A, firstn (n + m) l = firstn n l ++ firstn m (skipn n l).
Proof.
  induction n as [|n IH]; intros l; [reflexivity|].
  destruct l as [|x l]; cbn [Nat.add firstn skipn app].
  - rewrite firstn_nil. reflexivity.
  - rewrite IH. reflexivity.
Qed.

Lemma skipn_plus {A : Type} (n m : nat) :
  forall l : list A, skipn (n + m) l = skipn m (skipn n l).
Proof.
  induction n as [|n IH]; intros l; [reflexivity|].
  destruct l as [|x l]; cbn [Nat.add skipn].
  - rewrite skipn_nil. reflexivity.
  - apply IH.
Qed.

(** A slice between two bounds [0 <= a <= b]. *)
Lemma slice_nat {A : Type} (s : list A) (a b : nat) :
  (a <= b)%nat ->
  slice s (Z.of_nat a) (Z.of_nat b) = firstn (b - a) (skipn a s).
Proof.
  intros Hab. unfold slice, clamp_index. cbv zeta.
  replace (Z.of_nat a <? 0) with false by (symmetry; apply Z.ltb_ge; lia).
  replace (Z.of_nat b <? 0) with false by (symmetry; apply Z.ltb_ge; lia).
  set (len := List.length s).
  destruct (Nat.le_gt_cases len a) as [Hla|Hla].
  - rewrite !(skipn_all2 s) by (fold len; lia). rewrite !firstn_nil. reflexivity.
  - replace (Z.to_nat (Z.min (Z.of_nat a) (Z.of_nat len))) with a by lia.
    destruct (Nat.le_gt_cases b len) as [Hbl|Hbl].
    + f_equal. lia.
    + rewrite !firstn_all2; try reflexivity; rewrite length_skipn; fold len; lia.
Qed.

Lemma fmt_loop_chunks (indent : list ascii) (c : nat) (line : list ascii)
  (m : nat) :
  forall k,
    fmt_loop indent (Z.of_nat c) line (map Z.of_nat (seq k m))
      (Z.of_nat c * Z.of_nat k)
    = map (fun i => indent ++ firstn c (skipn (c * i) line)) (seq k m).
Proof.
  induction m as [|m IH]; intros k; [reflexivity|].
  cbn [seq map fmt_loop]. f_equal.
  - f_equal.
    replace (Z.of_nat c * Z.of_nat k) with (Z.of_nat (c * k)) by lia.
    replace (Z.of_nat c * (Z.of_nat k + 1)) with (Z.of_nat (c * k + c)) by lia.
    rewrite slice_nat by lia. f_equal. lia.
  - replace (Z.of_nat c * (Z.of_nat k + 1)) with (Z.of_nat c * Z.of_nat (S k))
      by lia.
    apply IH.
Qed.

Lemma concat_chunks {A : Type} (c : nat) (line : list A) (m : nat) :
  forall k,
    List.concat (map (fun i => firstn c (skipn (c * i) line)) (seq k m))
    = firstn (c * m) (skipn (c * k) line).
Proof.
  induction m as [|m IH]; intros k.
  - rewrite Nat.mul_0_r. reflexivity.
  - cbn [seq map List.concat]. rewrite IH.
    replace (c * S m)%nat with (c + c * m)%nat by lia.
    replace (c * S k)%nat with (c * k + c)%nat by lia.
    rewrite firstn_plus, skipn_plus. reflexivity.
Qed.

(** The number of chunks that [_fmt_output] computes for a line of [len]
    characters. *)
Lemma chunk_count (len cs : Z) :
  0 <= len -> 0 < cs ->
  let n := len / cs + (if len mod cs >? 0 then 1 else 0) in
  0 <= n /\ len <= cs * n /\ cs * (n - 1) < len + (if len =? 0 then cs else 0) /\
  n = (len + cs - 1) / cs.
Proof.
  intros Hlen Hcs. cbv zeta.
  pose proof (Z.div_mod len cs ltac:(lia)) as Hdm.
  pose proof (Z.mod_pos_bound len cs Hcs) as Hr.
  assert (Hq : 0 <= len / cs) by (apply Z.div_pos; lia).
  assert (Hn : len / cs + (if len mod cs >? 0 then 1 else 0)
               = (len + cs - 1) / cs).
  { destruct (len mod cs >? 0) eqn:E; rewrite Z.gtb_ltb in E.
    - apply Z.ltb_lt in E.
      apply (Z.div_unique_pos _ _ _ (len mod cs - 1)); [lia|nia].
    - apply Z.ltb_ge in E.
      apply (Z.div_unique_pos _ _ _ (cs - 1)); [lia|nia]. }
  rewrite <- Hn.
  destruct (len mod cs >? 0) eqn:E; rewrite Z.gtb_ltb in E;
    [apply Z.ltb_lt in E | apply Z.ltb_ge in E];
    destruct (len =? 0) eqn:E0;
    [apply Z.eqb_eq in E0 | apply Z.eqb_neq in E0
    |apply Z.eqb_eq in E0 | apply Z.eqb_neq in E0];
    repeat split; try reflexivity; try nia.
Qed.

Lemma fmt_output_positive (indent : list ascii) (chunk_size : Z)
  (line : list Byte.byte) (text : list ascii) :
  0 < chunk_size ->
  decode_ascii line = Returns text ->
  exists chunks,
    _fmt_output indent chunk_size line = Returns (map (app indent) chunks) /\
    List.concat chunks = text /\
    Forall (fun ch => (0 < List.length ch)%nat /\
                      Z.of_nat (List.length ch) <= chunk_size) chunks /\
    Z.of_nat (List.length chunks)
    = (Z.of_nat (List.length text) + chunk_size - 1) / chunk_size.
Proof.
  intros Hcs Hdec. unfold _fmt_output. rewrite Hdec. cbv zeta.
  replace (chunk_size =? 0) with false by (symmetry; apply Z.eqb_neq; lia).
  set (len := Z.of_nat (List.length text)).
  destruct (chunk_count len chunk_size ltac:(lia) Hcs) as (Hn0 & Hcover & Hlast & Hceil).
  set (N := len / chunk_size + (if len mod chunk_size >? 0 then 1 else 0)) in *.
  set (c := Z.to_nat chunk_size). set (n := Z.to_nat N).
  assert (Hc : chunk_size = Z.of_nat c) by (subst c; lia).
  exists (map (fun i => firstn c (skipn (c * i) text)) (seq 0 n)).
  split; [|split; [|split]].
  - f_equal. unfold range. fold n. rewrite Hc.
    replace 0 with (Z.of_nat c * Z.of_nat 0) by lia.
    rewrite fmt_loop_chunks, map_map. reflexivity.
  - rewrite concat_chunks. rewrite Nat.mul_0_r. cbn [skipn].
    apply firstn_all2. subst len n. lia.
  - apply Forall_forall. intros ch Hch.
    apply in_map_iff in Hch as (i & <- & Hi). apply in_seq in Hi.
    rewrite length_firstn, length_skipn.
    assert (Hlen0 : len <> 0).
    { intros E. assert (HN : N = 0) by (rewrite Hceil, E; apply Z.div_small; lia).
      subst n. lia. }
    replace (len =? 0) with false in Hlast by (symmetry; apply Z.eqb_neq; exact Hlen0).
    subst len n. nia.
  - rewrite length_map, length_seq. subst n. rewrite <- Hceil. lia.
Qed.

(** X18.  With a positive [chunk_size], [_fmt_output] prints an ASCII line in
    pieces that lose nothing: each printed line is the indentation followed
    by a chunk, the chunks put end to end are the decoded line, no chunk is
    empty or longer than [chunk_size], and there are as many as the length
    of the line divided by [chunk_size], rounded up. *)
Theorem fmt_output_roundtrip (indent : list ascii) (chunk_size : Z)
  (line : list Byte.byte) (text : list ascii) :
  0 < chunk_size ->
  decode_ascii line = Returns text ->
  exists chunks,
    _fmt_output indent chunk_size line = Returns (map (app indent) chunks) /\
    List.concat chunks = text /\
    Forall (fun ch => (0 < List.length ch)%nat /\
                      Z.of_nat (List.length ch) <= chunk_size) chunks /\
    Z.of_nat (List.length chunks)
    = (Z.of_nat (List.length text) + chunk_size - 1) / chunk_size.
Proof. exact (fmt_output_positive indent chunk_size line text). Qed.

Lemma fmt_output_roundtrip_witness :
  decode_ascii [Byte.x61; Byte.x62; Byte.x63; Byte.x64; Byte.x65]
    = Returns ["a"; "b"; "c"; "d"; "e"]%char /\
  _fmt_output [" "; " "]%char 2
    [Byte.x61; Byte.x62; Byte.x63; Byte.x64; Byte.x65]
  = Returns [ [" "; " "; "a"; "b"]; [" "; " "; "c"; "d"]; [" "; " "; "e"] ]%char.
Proof.
  split; [reflexivity|].
  assert (H2 : 0 < 2) by lia.
  destruct (fmt_output_roundtrip [" "; " "]%char 2
              [Byte.x61; Byte.x62; Byte.x63; Byte.x64; Byte.x65]
              ["a"; "b"; "c"; "d"; "e"]%char H2 eq_refl) as (chunks & _).
  reflexivity.
Defined.

Lemma decode_ascii_fails (line : list Byte.byte) :
  (exists b, In b line /\ (128 <= Byte.to_N b)%N) <->
  decode_ascii line = Raises UnicodeDecodeError.
Proof.
  unfold decode_ascii.
  destruct (forallb (fun b => (Byte.to_N b <? 128)%N) line) eqn:E.
  - split; [|discriminate]. intros (b & Hb & Hge).
    rewrite forallb_forall in E. specialize (E b Hb).
    apply N.ltb_lt in E. lia.
  - split; [reflexivity|]. intros _.
    induction line as [|b line IH]; [discriminate E|].
    cbn [forallb] in E. apply andb_false_iff in E as [E|E].
    + exists b. split; [left; reflexivity | apply N.ltb_ge; exact E].
    + destruct (IH E) as (b' & Hb' & Hge). exists b'. split; [right|]; assumption.
Qed.

(** X19.  The edges of [_fmt_output].  A byte above 127 makes it raise
    [UnicodeDecodeError] before anything is printed.  On an ASCII line, a
    [chunk_size] of zero (a terminal as wide as the indentation) raises
    [ZeroDivisionError], also for an empty line; a negative [chunk_size]
    prints nothing, whatever the line; and an empty line prints nothing. *)
Theorem fmt_output_edges (indent : list ascii) (chunk_size : Z)
  (line : list Byte.byte) :
  ((exists b, In b line /\ (128 <= Byte.to_N b)%N) ->
   _fmt_output indent chunk_size line = Raises UnicodeDecodeError) /\
  (forall text, decode_ascii line = Returns text ->
     (chunk_size = 0 ->
      _fmt_output indent chunk_size line = Raises ZeroDivisionError) /\
     (chunk_size < 0 -> _fmt_output indent chunk_size line = Returns []) /\
     (chunk_size <> 0 -> line = [] ->
      _fmt_output indent chunk_size line = Returns [])).
Proof.
  split.
  - intros H. apply decode_ascii_fails in H. unfold _fmt_output. rewrite H.
    reflexivity.
  - intros text Hdec. unfold _fmt_output. rewrite Hdec. cbv zeta.
    split; [|split].
    + intros ->. reflexivity.
    + intros Hneg.
      replace (chunk_size =? 0) with false by (symmetry; apply Z.eqb_neq; lia).
      set (len := Z.of_nat (List.length text)).
      pose proof (Z.div_mod len chunk_size ltac:(lia)) as Hdm.
      pose proof (Z.mod_neg_bound len chunk_size Hneg) as Hr.
      replace (len mod chunk_size >? 0) with false
        by (symmetry; rewrite Z.gtb_ltb; apply Z.ltb_ge; lia).
      unfold range.
      replace (Z.to_nat (len / chunk_size + 0)) with 0%nat; [reflexivity|].
      assert (len / chunk_size <= 0) by (subst len; nia). lia.
    + intros Hne ->. cbn in Hdec. inversion Hdec; subst text.
      replace (chunk_size =? 0) with false by (symmetry; apply Z.eqb_neq; lia).
      cbn [List.length Z.of_nat]. rewrite Z.div_0_l, Z.mod_0_l by exact Hne.
      reflexivity.
Qed.

Lemma fmt_output_edges_witness :
  _fmt_output ["-"%char] 0 [Byte.x61] = Raises ZeroDivisionError /\
  _fmt_output ["-"%char] (-1) [Byte.x61; Byte.x62] = Returns [] /\
  _fmt_output ["-"%char] 5 [Byte.xe9] = Raises UnicodeDecodeError.
Proof.
  split; [|split].
  - apply (proj1 (proj2 (fmt_output_edges ["-"%char] 0 [Byte.x61])
                    ["a"%char] eq_refl)). reflexivity.
  - apply (proj1 (proj2 (proj2 (fmt_output_edges ["-"%char] (-1)
                                  [Byte.x61; Byte.x62])
                           ["a"; "b"]%char eq_refl))). lia.
  - apply (proj1 (fmt_output_edges ["-"%char] 5 [Byte.xe9])).
    exists Byte.xe9. split; [left; reflexivity | cbn; lia].
Defined.

(** One turn of the [while True] loop on a non-empty read. *)
Lemma read_loop_step (indent : list ascii) (chunk_size : Z)
  (line : list Byte.byte) (rest : list (list Byte.byte)) :
  line <> [] ->
  read_loop indent chunk_size (line :: rest)
  = if Byte.eqb (last line Byte.x00) Byte.x0a
    then match _fmt_output indent chunk_size (removelast line) with
         | Raises e => ([], Some e)
         | Returns printed =>
             (printed ++ fst (read_loop indent chunk_size rest),
              snd (read_loop indent chunk_size rest))
         end
    else match _fmt_output indent chunk_size line with
         | Raises e => ([], Some e)
         | Returns printed => (printed, None)
         end.
Proof.
  intros Hne. destruct line as [|b line]; [contradiction|].
  cbn [read_loop].
  destruct (read_loop indent chunk_size rest) as [more err]. reflexivity.
Qed.

(** X20.  The loop ends at the first read that is empty or does not end with a
    newline: whatever [readline] would return after it is not printed. *)
Theorem read_loop_stops (indent : list ascii) (chunk_size : Z)
  (reads : list (list Byte.byte)) (line : list Byte.byte)
  (more : list (list Byte.byte)) :
  line = [] \/ last line Byte.x00 <> Byte.x0a ->
  read_loop indent chunk_size (reads ++ line :: more)
  = read_loop indent chunk_size (reads ++ [line]).
Proof.
  intros Hend. induction reads as [|l reads IH]; cbn [app].
  - destruct line as [|b line]; [reflexivity|].
    rewrite !read_loop_step by discriminate.
    destruct (Byte.eqb (last (b :: line) Byte.x00) Byte.x0a) eqn:E; [|reflexivity].
    apply Byte.byte_dec_bl in E. destruct Hend as [H|H]; [discriminate H|].
    contradiction.
  - destruct l as [|b l]; [reflexivity|].
    rewrite !read_loop_step by discriminate. rewrite IH. reflexivity.
Qed.

Lemma read_loop_stops_witness :
  last [Byte.x61] Byte.x00 <> Byte.x0a /\
  read_loop [" "%char] 3 ([[Byte.x62; Byte.x0a]] ++ [Byte.x61] :: [[Byte.x63; Byte.x0a]])
  = ([[" "; "b"]; [" "; "a"]]%char, None).
Proof.
  assert (H : last [Byte.x61] Byte.x00 <> Byte.x0a) by discriminate.
  split; [exact H|].
  rewrite (read_loop_stops [" "%char] 3 [[Byte.x62; Byte.x0a]] [Byte.x61]
             [[Byte.x63; Byte.x0a]] (or_intror H)).
  reflexivity.
Defined.


